(** * Trade reconciliation: position matcher and ledger writer

    A shallow embedding of [src/trade_reconciliation.py]:
    - [get_hl_closed_trades]: rebuilds per-coin positions from the fills of
      one wallet and emits one round trip per closing fill;
    - [backfill_trades]: inserts the round trips into the [trades] table,
      skipping those that are already there, and returns the aggregates.

    Numbers.  The Python code computes on [float]; here every price, size
    and amount is an exact rational ([Q]).  Rounding, infinities and NaN are
    outside the model; comparisons ([== 0], [> 0], [<= 0], [min]) are the
    boolean tests of [Q].  A float division by zero raises
    [ZeroDivisionError]: divisions return [option Q].  Timestamps are the
    integers of the venue ([Z], milliseconds).  The properties below are
    those that read the same with the float operations of the code
    (which branch is taken, what is stored where, signs and orders);
    bounds and identities that need exact arithmetic are not stated.

    Exceptions.  A computation that can raise returns [option]; [None] is
    "an exception was raised", and the handler the source installs is
    written where the source has it. *)

From Stdlib Require Import ZArith QArith Qabs List String Ascii Sorted Lia Lqa.
From stdpp Require Import gmap strings list.

Local Open Scope string_scope.
Local Open Scope list_scope.
Local Open Scope Z_scope.

(** ** Numbers *)

Module Num.

(** [a < b] on rationals, as a boolean. *)
Definition Qlt_bool (a b : Q) : bool := negb (Qle_bool b a).

(** Python's [min(a, b)]: [b] when [b < a], else [a]. *)
Definition py_min (a b : Q) : Q := if Qlt_bool b a then b else a.

(** Python's [a / b] on floats: raises [ZeroDivisionError] when [b == 0]. *)
Definition py_div (a b : Q) : option Q :=
  if Qeq_bool b 0 then None else Some (a / b)%Q.

End Num.
Import Num.

(** ** Strings: [str.lower] on ASCII *)

Definition lower_ascii (c : ascii) : ascii :=
  let n := nat_of_ascii c in
  if ((65 <=? n)%nat && (n <=? 90)%nat)%bool then ascii_of_nat (n + 32) else c.

Fixpoint lower (s : string) : string :=
  match s with
  | EmptyString => EmptyString
  | String c s' => String (lower_ascii c) (lower s')
  end.

(** [s in (t1, t2, ...)] *)
Definition str_in (s : string) (l : list string) : bool :=
  existsb (String.eqb s) l.

(** ** Data model *)

(** One element of [info.user_fills(wallet)], after the [.get] defaults and
    the [float(...)] conversions of lines 67-77 ([fill_side] is the raw
    venue token). *)
Record Fill := mkFill {
  fill_coin : string;
  fill_side : string;
  fill_sz   : Q;
  fill_px   : Q;
  fill_time : Z;
  fill_fee  : Q
}.

(** [pos['side']]: [None], ['long'] or ['short']. *)
Inductive PosSide := Long | Short.

(** [pos['side'] == 'long'] and [pos['side'] == 'short']. *)
Definition side_is (d : PosSide) (s : option PosSide) : bool :=
  match s, d with
  | Some Long, Long | Some Short, Short => true
  | _, _ => false
  end.

(** An element of [pos['entries']]. *)
Record Entry := mkEntry {
  e_timestamp : Z;
  e_price     : Q;
  e_amount    : Q;
  e_side      : string
}.

(** A value of the [positions] dict. *)
Record Position := mkPosition {
  entries      : list Entry;
  pos_side     : option PosSide;
  total_amount : Q;
  avg_entry    : Q
}.

(** An element of [round_trips]. *)
Record RoundTrip := mkRoundTrip {
  symbol      : string;
  rt_side     : option PosSide;
  entry_price : Q;
  exit_price  : Q;
  quantity    : Q;
  pnl_usd     : Q;
  pnl_pct     : Q;
  entry_time  : Z;
  exit_time   : Z;
  rt_fee      : Q
}.

(** The two locals the loop of [get_hl_closed_trades] updates. *)
Record MatcherState := mkState {
  positions   : gmap string Position;
  round_trips : list RoundTrip
}.

(** ** The matcher: [get_hl_closed_trades] *)

(** Lines 68-72: lowercase, then map the venue vocabulary to ['buy'] or
    ['sell']; any other token is kept as it is. *)
Definition normalize_side (raw : string) : string :=
  let side := lower raw in
  if str_in side ["b"; "buy"; "long"] then "buy"
  else if str_in side ["a"; "sell"; "short"] then "sell"
  else side.

(** Line 79: [not coin or amount == 0]. *)
Definition degenerate (coin : string) (amount : Q) : bool :=
  (coin =? EmptyString)%string || Qeq_bool amount 0.

(** Lines 83 and 126: the dict of a flat position. *)
Definition flat_position : Position :=
  {| entries := []; pos_side := None; total_amount := 0; avg_entry := 0 |}.

(** Lines 87-91. *)
Definition is_opening (pos : Position) (side : string) : bool :=
  Qeq_bool (total_amount pos) 0
  || (side_is Long (pos_side pos) && (side =? "buy")%string)
  || (side_is Short (pos_side pos) && (side =? "sell")%string).

(** Lines 94-99: the opening branch, on the position of the coin. *)
Definition open_fill (pos : Position) (side : string) (amount price : Q)
    (timestamp : Z) : Position :=
  let side0 :=
    if Qeq_bool (total_amount pos) 0
    then Some (if (side =? "buy")%string then Long else Short)
    else pos_side pos in
  let total_cost := (avg_entry pos * total_amount pos + price * amount)%Q in
  let total := (total_amount pos + amount)%Q in
  {| entries := entries pos ++ [mkEntry timestamp price amount side];
     pos_side := side0;
     total_amount := total;
     avg_entry := if Qlt_bool 0 total then (total_cost / total)%Q else 0 |}.

(** Lines 106-111: realized P&L and its percentage.  [pos['side'] == 'long']
    selects the first formula, anything else the second. *)
Definition is_long (pos : Position) : bool :=
  side_is Long (pos_side pos).

Definition realized_pnl (pos : Position) (entry_price exit_price close_amount : Q) : Q :=
  if is_long pos then ((exit_price - entry_price) * close_amount)%Q
  else ((entry_price - exit_price) * close_amount)%Q.

Definition realized_pnl_pct (pos : Position) (entry_price exit_price : Q) : option Q :=
  if is_long pos
  then r ← py_div exit_price entry_price; Some ((r - 1) * 100)%Q
  else r ← py_div entry_price exit_price; Some ((r - 1) * 100)%Q.

(** Line 117: [pos['entries'][0]['timestamp'] if pos['entries'] else timestamp]. *)
Definition first_entry_time (pos : Position) (timestamp : Z) : Z :=
  match entries pos with
  | e :: _ => e_timestamp e
  | [] => timestamp
  end.

(** Lines 124-126: what the position of the coin is after the close. *)
Definition after_close (pos : Position) (close_amount : Q) : Position :=
  let total := (total_amount pos - close_amount)%Q in
  if Qle_bool total 0 then flat_position
  else {| entries := entries pos; pos_side := pos_side pos;
          total_amount := total; avg_entry := avg_entry pos |}.

(** Lines 102-126: the closing branch.  It raises on a zero divisor
    (line 111) and, were [pos['side']] still [None], on [.upper()]
    (line 122). *)
Definition close_fill (pos : Position) (coin : string) (amount price : Q)
    (timestamp : Z) (fee : Q) : option (RoundTrip * Position) :=
  let close_amount := py_min amount (total_amount pos) in
  let entry_price := avg_entry pos in
  let exit_price := price in
  let pnl := realized_pnl pos entry_price exit_price close_amount in
  pct ← realized_pnl_pct pos entry_price exit_price;
  let rt :=
    {| symbol := coin; rt_side := pos_side pos;
       entry_price := entry_price; exit_price := exit_price;
       quantity := close_amount; pnl_usd := pnl; pnl_pct := pct;
       entry_time := first_entry_time pos timestamp;
       exit_time := timestamp; rt_fee := fee |} in
  _ ← pos_side pos;
  Some (rt, after_close pos close_amount).

(** Lines 82-85: the position the iteration works on, created flat when
    the coin is new. *)
Definition position_of (st : MatcherState) (coin : string) : Position :=
  default flat_position (positions st !! coin).

(** Lines 67-126: the body of the loop for one fill.  Both branches leave
    their result under [positions[coin]]. *)
Definition process_fill (st : MatcherState) (fill : Fill) : option MatcherState :=
  let coin := fill_coin fill in
  let side := normalize_side (fill_side fill) in
  let amount := fill_sz fill in
  let price := fill_px fill in
  let timestamp := fill_time fill in
  let fee := Qabs (fill_fee fill) in
  if degenerate coin amount then Some st
  else
    let pos := position_of st coin in
    if is_opening pos side then
      Some {| positions := <[coin := open_fill pos side amount price timestamp]> (positions st);
              round_trips := round_trips st |}
    else
      '(rt, pos') ← close_fill pos coin amount price timestamp fee;
      Some {| positions := <[coin := pos']> (positions st);
              round_trips := round_trips st ++ [rt] |}.

(** The three ways an iteration can end without raising. *)
Inductive step_kind (st : MatcherState) (fill : Fill) (st' : MatcherState) : Prop :=
  | step_skip :
      degenerate (fill_coin fill) (fill_sz fill) = true ->
      st' = st ->
      step_kind st fill st'
  | step_open :
      degenerate (fill_coin fill) (fill_sz fill) = false ->
      is_opening (position_of st (fill_coin fill))
        (normalize_side (fill_side fill)) = true ->
      st' = {| positions :=
                 <[fill_coin fill :=
                     open_fill (position_of st (fill_coin fill))
                       (normalize_side (fill_side fill)) (fill_sz fill)
                       (fill_px fill) (fill_time fill)]> (positions st);
               round_trips := round_trips st |} ->
      step_kind st fill st'
  | step_close rt pos' :
      degenerate (fill_coin fill) (fill_sz fill) = false ->
      is_opening (position_of st (fill_coin fill))
        (normalize_side (fill_side fill)) = false ->
      close_fill (position_of st (fill_coin fill)) (fill_coin fill)
        (fill_sz fill) (fill_px fill) (fill_time fill) (Qabs (fill_fee fill))
        = Some (rt, pos') ->
      st' = {| positions := <[fill_coin fill := pos']> (positions st);
               round_trips := round_trips st ++ [rt] |} ->
      step_kind st fill st'.

(** The [for] loop of line 66 over the fills in the order given. *)
Fixpoint match_fills (st : MatcherState) (fills : list Fill) : option MatcherState :=
  match fills with
  | [] => Some st
  | fill :: rest => st' ← process_fill st fill; match_fills st' rest
  end.

(** [sorted(..., key=lambda f: f.get('time', 0))]: a stable sort. *)
Fixpoint insert_by_time (f : Fill) (l : list Fill) : list Fill :=
  match l with
  | [] => [f]
  | g :: l' =>
      if fill_time f <=? fill_time g then f :: g :: l'
      else g :: insert_by_time f l'
  end.

Fixpoint sorted_by_time (l : list Fill) : list Fill :=
  match l with
  | [] => []
  | f :: l' => insert_by_time f (sorted_by_time l')
  end.

(** Lines 63-64. *)
Definition initial_state : MatcherState :=
  {| positions := ∅; round_trips := [] |}.

(** Line 59. *)
Definition recent_fills (since_ts : Z) (all_fills : list Fill) : list Fill :=
  List.filter (fun f => since_ts <=? fill_time f) all_fills.

(** Lines 59-126 on the fetched fills: the final state of the loop, or
    [None] when the loop raised. *)
Definition run_matcher (since_ts : Z) (all_fills : list Fill) : option MatcherState :=
  match_fills initial_state (sorted_by_time (recent_fills since_ts all_fills)).

(** [get_hl_closed_trades].  [fetched] is the outcome of
    [info.user_fills(wallet_address)] ([None]: the call raised) and
    [since_ts] the lower bound computed from the clock at line 56.  The
    handler of lines 130-134 turns every exception of the body into []. *)
Definition get_hl_closed_trades (fetched : option (list Fill)) (since_ts : Z)
    : list RoundTrip :=
  match fetched with
  | None => []
  | Some all_fills =>
      match run_matcher since_ts all_fills with
      | Some st => round_trips st
      | None => []
      end
  end.

(** ** Vocabulary of the properties *)

(** [fill], processed in state [st], appended [rt] to [round_trips]: it
    passed the filter of line 79, took the [else] branch of line 101 and
    that branch did not raise. *)
Definition emitted_by (st : MatcherState) (fill : Fill) (rt : RoundTrip) : Prop :=
  degenerate (fill_coin fill) (fill_sz fill) = false /\
  is_opening (position_of st (fill_coin fill))
    (normalize_side (fill_side fill)) = false /\
  exists pos',
    close_fill (position_of st (fill_coin fill)) (fill_coin fill)
      (fill_sz fill) (fill_px fill) (fill_time fill) (Qabs (fill_fee fill))
      = Some (rt, pos').

(** The order [sorted] establishes. *)
Definition time_le (f g : Fill) : Prop := fill_time f <= fill_time g.

(** The first entry of a position is at least as early as every entry. *)
Definition head_earliest (pos : Position) : Prop :=
  match entries pos with
  | [] => True
  | e :: _ => Forall (fun e' => e_timestamp e <= e_timestamp e') (entries pos)
  end.

(** A position with exposure has recorded at least one entry. *)
Definition has_entry_when_open (pos : Position) : Prop :=
  ~ (total_amount pos == 0)%Q -> entries pos <> [].

(** Every recorded entry is at least as early as the fills still to come. *)
Definition entries_before (rest : list Fill) (pos : Position) : Prop :=
  Forall (fun e => Forall (fun f => e_timestamp e <= fill_time f) rest)
    (entries pos).

(** A position whose [total_amount] is zero has no entry left. *)
Definition cleared_when_flat (pos : Position) : Prop :=
  (0 <= total_amount pos)%Q /\
  ((total_amount pos == 0)%Q -> entries pos = []).

(** The invariant of the loop of line 66, with [rest] the fills that remain. *)
Definition matcher_inv (st : MatcherState) (rest : list Fill) : Prop :=
  forall coin pos, positions st !! coin = Some pos ->
    head_earliest pos /\ has_entry_when_open pos /\ entries_before rest pos.

(** The side token is one of the six the normalisation knows. *)
Definition recognized_side (raw : string) : bool :=
  str_in (lower raw) ["b"; "buy"; "long"]
  || str_in (lower raw) ["a"; "sell"; "short"].

(** ** The ledger writer: [backfill_trades] *)

(** A [datetime], as microseconds since the epoch. *)
Definition datetime := Z.

(** [datetime.min] and [datetime.max] (years 1 and 9999), in microseconds. *)
Definition datetime_min : datetime := -62135596800 * 1000000.
Definition datetime_max : datetime := 253402300799 * 1000000 + 999999.

(** [datetime.utcfromtimestamp], on a number of microseconds: raises
    outside the years 1 to 9999. *)
Definition utcfromtimestamp (us : Z) : option datetime :=
  if (datetime_min <=? us) && (us <=? datetime_max) then Some us else None.

(** Lines 153-154: a value above [1e10] is read as milliseconds, any other
    as seconds. *)
Definition to_datetime (ts : Z) : option datetime :=
  if 10 ^ 10 <? ts then utcfromtimestamp (ts * 1000)
  else utcfromtimestamp (ts * 1000000).

(** A row of the [trades] table, with the columns the INSERT of lines
    166-176 fills. *)
Record LedgerRow := mkRow {
  row_user_id     : Z;
  row_symbol      : string;
  row_hl_coin     : string;
  row_side        : option PosSide;
  row_entry_price : Q;
  row_exit_price  : Q;
  row_quantity    : Q;
  row_leverage    : Z;
  profit_usd      : Q;
  profit_percent  : Q;
  fee_usd         : Q;
  opened_at       : datetime;
  closed_at       : datetime;
  row_source      : string
}.

(** The WHERE clause of lines 158-160, on one row: same user, same symbol,
    [opened_at] and [closed_at] each less than 60 seconds away. *)
Definition dedup_match (user_id : Z) (sym : string) (entry_dt exit_dt : datetime)
    (row : LedgerRow) : bool :=
  (row_user_id row =? user_id)
  && (row_symbol row =? sym)%string
  && (Z.abs (opened_at row - entry_dt) <? 60 * 1000000)
  && (Z.abs (closed_at row - exit_dt) <? 60 * 1000000).

(** [SELECT COUNT( * ) ...] of lines 156-161. *)
Definition count_existing (trades : list LedgerRow) (user_id : Z) (sym : string)
    (entry_dt exit_dt : datetime) : nat :=
  length (List.filter (dedup_match user_id sym entry_dt exit_dt) trades).

(** Lines 150-151. *)
Definition fee_amount_of (fee_rate : Q) (rt : RoundTrip) : Q :=
  let position_size := (quantity rt * exit_price rt)%Q in
  if Qlt_bool 0 (pnl_usd rt) then (position_size * fee_rate)%Q else 0.

(** The row the INSERT of lines 166-176 writes. *)
Definition ledger_row (user_id : Z) (rt : RoundTrip) (fee_amount : Q)
    (entry_dt exit_dt : datetime) : LedgerRow :=
  {| row_user_id := user_id; row_symbol := symbol rt; row_hl_coin := symbol rt;
     row_side := rt_side rt;
     row_entry_price := entry_price rt; row_exit_price := exit_price rt;
     row_quantity := quantity rt; row_leverage := 1;
     profit_usd := pnl_usd rt; profit_percent := pnl_pct rt;
     fee_usd := fee_amount;
     opened_at := entry_dt; closed_at := exit_dt;
     row_source := "reconciliation" |}.

(** The two calls on the connection; the store can make either raise. *)
Inductive DbOp := Fetchval | Execute.

(** What the body of the [try] of lines 149-180 ends in. *)
Inductive Outcome :=
  | Inserted (row : LedgerRow)   (* reached line 178 *)
  | Skipped                      (* [continue] of line 164 *)
  | Raised.                      (* an exception, handled at line 181 *)

(** Lines 150-176 for one round trip, against the rows [trades] of the
    table; [raises op] tells whether the store raises on that call. *)
Definition try_insert (raises : DbOp -> bool) (user_id : Z) (fee_rate : Q)
    (trades : list LedgerRow) (rt : RoundTrip) : Outcome :=
  let fee_amount := fee_amount_of fee_rate rt in
  match to_datetime (entry_time rt) with
  | None => Raised
  | Some entry_dt =>
  match to_datetime (exit_time rt) with
  | None => Raised
  | Some exit_dt =>
      if raises Fetchval then Raised
      else if (0 <? count_existing trades user_id (symbol rt) entry_dt exit_dt)%nat
      then Skipped
      else if raises Execute then Raised
      else Inserted (ledger_row user_id rt fee_amount entry_dt exit_dt)
  end end.

(** The table and the three accumulators of lines 144-146. *)
Record WriterState := mkWriter {
  trades     : list LedgerRow;
  inserted   : nat;
  total_pnl  : Q;
  total_fees : Q
}.

(** One iteration of the loop of line 148. *)
Definition writer_step (raises : DbOp -> bool) (user_id : Z) (fee_rate : Q)
    (st : WriterState) (rt : RoundTrip) : WriterState :=
  match try_insert raises user_id fee_rate (trades st) rt with
  | Inserted row =>
      {| trades := trades st ++ [row];
         inserted := S (inserted st);
         total_pnl := (total_pnl st + pnl_usd rt)%Q;
         total_fees := (total_fees st + fee_usd row)%Q |}
  | Skipped => st
  | Raised => st
  end.

(** The loop of lines 148-182; [raises i] is the behaviour of the store
    while the [i]-th round trip of the batch is processed. *)
Fixpoint backfill_loop (raises : nat -> DbOp -> bool) (i : nat) (user_id : Z)
    (fee_rate : Q) (st : WriterState) (rts : list RoundTrip) : WriterState :=
  match rts with
  | [] => st
  | rt :: rest =>
      backfill_loop raises (S i) user_id fee_rate
        (writer_step (raises i) user_id fee_rate st rt) rest
  end.

(** Lines 144-146. *)
Definition writer_start (table : list LedgerRow) : WriterState :=
  {| trades := table; inserted := 0; total_pnl := 0; total_fees := 0 |}.

Section Writer.

(** [FEE_TIERS], imported from the module [config] at line 139: a table
    from the tier name to the ['rate'] of its configuration. *)
Variable FEE_TIERS : gmap string Q.

(** Lines 141-142.  [FEE_TIERS['standard']] is evaluated whatever the
    tier, and raises [KeyError] when it is missing. *)
Definition resolve_fee_rate (fee_tier : string) : option Q :=
  standard ← FEE_TIERS !! "standard";
  Some (default standard (FEE_TIERS !! fee_tier)).

(** [backfill_trades]: [table] is the content of [trades] when the call
    starts.  The result carries the table after the call next to the
    triple the source returns; [None] is the [KeyError] of line 141. *)
Definition backfill_trades (raises : nat -> DbOp -> bool)
    (table : list LedgerRow) (user_id : Z) (round_trips : list RoundTrip)
    (fee_tier : string) : option WriterState :=
  fee_rate ← resolve_fee_rate fee_tier;
  Some (backfill_loop raises 0 user_id fee_rate (writer_start table) round_trips).

End Writer.

(** ** Vocabulary of the writer's properties *)

(** The table [table] holds a row the existence check of lines 156-161
    finds for [rt]. *)
Definition matched (user_id : Z) (rt : RoundTrip) (table : list LedgerRow) : Prop :=
  exists entry_dt exit_dt row,
    to_datetime (entry_time rt) = Some entry_dt /\
    to_datetime (exit_time rt) = Some exit_dt /\
    In row table /\
    dedup_match user_id (symbol rt) entry_dt exit_dt row = true.

(** One of the two timestamps of [rt] has no [datetime]: lines 153-154
    raise whatever the table holds. *)
Definition unconvertible (rt : RoundTrip) : Prop :=
  to_datetime (entry_time rt) = None \/ to_datetime (exit_time rt) = None.

(** The sums the aggregates are compared with, in the order of insertion. *)
Definition sum_profit (rows : list LedgerRow) : Q :=
  fold_left (fun acc row => (acc + profit_usd row)%Q) rows 0%Q.

Definition sum_fees (rows : list LedgerRow) : Q :=
  fold_left (fun acc row => (acc + fee_usd row)%Q) rows 0%Q.

(** ** Vocabulary of the further properties of the matcher *)

(** The fill passes the filter of line 79. *)
Definition kept (fill : Fill) : bool :=
  negb (degenerate (fill_coin fill) (fill_sz fill)).

(** The fill is on coin [c]; the round trip is on symbol [c]. *)
Definition on_coin (c : string) (fill : Fill) : bool :=
  (fill_coin fill =? c)%string.

Definition of_symbol (c : string) (rt : RoundTrip) : bool :=
  (symbol rt =? c)%string.

(** Round trips in the order of their closing fills. *)
Definition exit_le (a b : RoundTrip) : Prop := exit_time a <= exit_time b.

(** A position is the flat one, or it has exposure, a side and entries. *)
Definition open_or_flat (pos : Position) : Prop :=
  pos = flat_position \/
  ((0 < total_amount pos)%Q /\ is_Some (pos_side pos) /\ entries pos <> []).

(** The same, with a property [P] of the average entry price of an open
    position. *)
Definition sound_position (P : Q -> Prop) (pos : Position) : Prop :=
  pos = flat_position \/
  ((0 < total_amount pos)%Q /\ is_Some (pos_side pos) /\ entries pos <> [] /\
   P (avg_entry pos)).

(** [P] holds of a price carried from the flat position and is kept by the
    weighted average of line 96-98. *)
Definition kept_by_averaging (P : Q -> Prop) : Prop :=
  (forall p a, (0 < a)%Q -> P p -> P ((0 * 0 + p * a) / (0 + a))%Q) /\
  (forall avg t p a, (0 < t)%Q -> (0 < a)%Q -> P avg -> P p ->
     P ((avg * t + p * a) / (t + a))%Q).

(** The fill is a closing one whose divisor at line 111 is zero: the
    stored average of a long, or the price of the fill on a short. *)
Definition zero_divisor (st : MatcherState) (fill : Fill) : Prop :=
  let pos := position_of st (fill_coin fill) in
  degenerate (fill_coin fill) (fill_sz fill) = false /\
  is_opening pos (normalize_side (fill_side fill)) = false /\
  ((pos_side pos = Some Long /\ (avg_entry pos == 0)%Q) \/
   (pos_side pos = Some Short /\ (fill_px fill == 0)%Q)).

(** A position with exposure has a side. *)
Definition side_when_open (pos : Position) : Prop :=
  ~ (total_amount pos == 0)%Q -> is_Some (pos_side pos).

(** ** Vocabulary of the further properties of the writer *)

(** The row belongs to user [user_id]. *)
Definition of_user (user_id : Z) (row : LedgerRow) : bool :=
  row_user_id row =? user_id.

(** Row [b] is what the existence check of lines 156-161 finds for a round
    trip stored as row [a]. *)
Definition same_trade (a b : LedgerRow) : bool :=
  dedup_match (row_user_id a) (row_symbol a) (opened_at a) (closed_at a) b.

(** No two rows of the table are the same trade for that check. *)
Definition duplicate_free (table : list LedgerRow) : Prop :=
  ForallOrdPairs (fun a b => same_trade a b = false) table.

(** [row] is the row the writer builds for [rt]. *)
Definition row_of_trade (user_id : Z) (fee_rate : Q) (rt : RoundTrip)
    (row : LedgerRow) : Prop :=
  exists entry_dt exit_dt,
    to_datetime (entry_time rt) = Some entry_dt /\
    to_datetime (exit_time rt) = Some exit_dt /\
    row = ledger_row user_id rt (fee_amount_of fee_rate rt) entry_dt exit_dt.

(** ** The two entry points: [reconcile_all_users], [reconcile_single_user] *)

(** Python's truth value of a string that may be [None]. *)
Definition truthy (s : option string) : bool :=
  match s with
  | Some (String _ _) => true
  | _ => false
  end.

(** A row of [follower_users], with the columns the queries of lines
    196-200 and 242-245 select or test. *)
Record User := mkUser {
  u_id              : Z;
  u_email           : string;
  u_fee_tier        : option string;
  u_key_encrypted   : option string;
  u_wallet_address  : option string;
  u_credentials_set : bool
}.

(** What lies outside the process while one user is reconciled: the fills
    the venue returns for a wallet ([None]: the fetch raised), the lower
    bound of the window the clock gives at line 56, and the calls on which
    the store raises. *)
Record Venue := mkVenue {
  user_fills   : string -> option (list Fill);
  window_start : Z;
  store_raises : nat -> DbOp -> bool
}.

(** [user['fee_tier'] or 'standard'] *)
Definition tier_or_standard (tier : option string) : string :=
  if truthy tier then default "standard" tier else "standard".

(** The WHERE clause of line 199. *)
Definition eligible (user : User) : bool :=
  u_credentials_set user
  && match u_key_encrypted user with Some _ => true | None => false end.

Section EntryPoints.

(** The environment variable of line 27. *)
Variable CREDENTIALS_ENCRYPTION_KEY : option string.

(** [Fernet(key).decrypt(token).decode()]; [None] when any of it raises. *)
Variable fernet_decrypt : string -> string -> option string.

(** [Account.from_key(pk).address]; [None] when it raises. *)
Variable from_key : string -> option string.

Variable FEE_TIERS : gmap string Q.

(** [decrypt_credential], lines 31-40. *)
Definition decrypt_credential (encrypted_value : option string) : string :=
  if negb (truthy CREDENTIALS_ENCRYPTION_KEY) || negb (truthy encrypted_value)
  then EmptyString
  else
    match fernet_decrypt (default EmptyString CREDENTIALS_ENCRYPTION_KEY)
            (default EmptyString encrypted_value) with
    | Some plain => plain
    | None => EmptyString
    end.

(** Lines 220-227 and 261-269: fetch, match, and write when there is
    something to write.  The result is the table afterwards; [None] is an
    exception leaving [backfill_trades]. *)
Definition reconcile_wallet (venue : Venue) (table : list LedgerRow)
    (user : User) (wallet_address : string) : option (list LedgerRow) :=
  let round_trips :=
    get_hl_closed_trades (user_fills venue wallet_address) (window_start venue) in
  match round_trips with
  | [] => Some table
  | _ :: _ =>
      result ← backfill_trades FEE_TIERS (store_raises venue) table (u_id user)
                 round_trips (tier_or_standard (u_fee_tier user));
      Some (trades result)
  end.

(** Lines 208-218: the wallet of the user, or [None] for [continue]. *)
Definition wallet_or_skip (user : User) : option string :=
  if truthy (u_wallet_address user) then u_wallet_address user
  else
    let pk := decrypt_credential (u_key_encrypted user) in
    if (pk =? EmptyString)%string then None else from_key pk.

(** The loop of lines 204-230; [world i] is the outside while the [i]-th
    user is reconciled. *)
Fixpoint reconcile_users (world : nat -> Venue) (i : nat)
    (table : list LedgerRow) (users : list User) : option (list LedgerRow) :=
  match users with
  | [] => Some table
  | user :: rest =>
      match wallet_or_skip user with
      | None => reconcile_users world (S i) table rest
      | Some wallet_address =>
          table' ← reconcile_wallet (world i) table user wallet_address;
          reconcile_users world (S i) table' rest
      end
  end.

(** [reconcile_all_users]: [follower_users] and [table] are the contents
    of the two tables when the call starts. *)
Definition reconcile_all_users (world : nat -> Venue)
    (follower_users : list User) (table : list LedgerRow)
    : option (list LedgerRow) :=
  reconcile_users world 0 table (List.filter eligible follower_users).

(** [reconcile_single_user].  A user that is not found, or whose key does
    not decrypt, ends the call (lines 247-258); [Account.from_key] is not
    guarded here (line 259). *)
Definition reconcile_single_user (venue : Venue) (follower_users : list User)
    (table : list LedgerRow) (user_id : Z) : option (list LedgerRow) :=
  match List.find (fun u => u_id u =? user_id) follower_users with
  | None => Some table
  | Some user =>
      if truthy (u_wallet_address user) then
        reconcile_wallet venue table user
          (default EmptyString (u_wallet_address user))
      else
        let pk := decrypt_credential (u_key_encrypted user) in
        if (pk =? EmptyString)%string then Some table
        else
          match from_key pk with
          | None => None
          | Some wallet_address =>
              reconcile_wallet venue table user wallet_address
          end
  end.

(** No user of the list has a round trip to write: each is skipped at
    lines 208-218 or gets an empty list at line 220. *)
Fixpoint idle_users (world : nat -> Venue) (i : nat) (users : list User) : Prop :=
  match users with
  | [] => True
  | user :: rest =>
      match wallet_or_skip user with
      | None => True
      | Some wallet_address =>
          get_hl_closed_trades (user_fills (world i) wallet_address)
            (window_start (world i)) = []
      end /\ idle_users world (S i) rest
  end.

End EntryPoints.

(** * Properties *)

(** ** Boolean tests on rationals *)

Lemma Qlt_bool_iff (a b : Q) : Qlt_bool a b = true <-> (a < b)%Q.
Proof.
  unfold Qlt_bool. rewrite negb_true_iff. split.
  - intros H. apply Qnot_le_lt. intros Hle.
    apply Qle_bool_iff in Hle. congruence.
  - intros H. destruct (Qle_bool b a) eqn:E; [|reflexivity].
    apply Qle_bool_iff in E. exfalso. exact (Qlt_not_le _ _ H E).
Qed.

Lemma Qlt_bool_false (a b : Q) : Qlt_bool a b = false <-> (b <= a)%Q.
Proof.
  unfold Qlt_bool. rewrite negb_false_iff. apply Qle_bool_iff.
Qed.

Lemma Qeq_bool_false (a b : Q) : Qeq_bool a b = false <-> ~ (a == b)%Q.
Proof.
  split.
  - intros H E. apply Qeq_bool_iff in E. congruence.
  - intros H. destruct (Qeq_bool a b) eqn:E; [|reflexivity].
    apply Qeq_bool_iff in E. contradiction.
Qed.

Lemma py_min_le_l (a b : Q) : (py_min a b <= a)%Q.
Proof.
  unfold py_min. destruct (Qlt_bool b a) eqn:E.
  - apply Qlt_bool_iff in E. apply Qlt_le_weak. exact E.
  - apply Qle_refl.
Qed.

Lemma py_min_le_r (a b : Q) : (py_min a b <= b)%Q.
Proof.
  unfold py_min. destruct (Qlt_bool b a) eqn:E.
  - apply Qle_refl.
  - apply Qlt_bool_false in E. exact E.
Qed.

Lemma py_min_choice (a b : Q) : py_min a b = a \/ py_min a b = b.
Proof. unfold py_min. destruct (Qlt_bool b a); auto. Qed.

Lemma py_min_excess (a b : Q) : (b < a)%Q -> py_min a b = b.
Proof. intros H. unfold py_min. apply Qlt_bool_iff in H. rewrite H. reflexivity. Qed.

(** ** One iteration of the matcher *)

Lemma process_fill_degenerate st fill :
  degenerate (fill_coin fill) (fill_sz fill) = true ->
  process_fill st fill = Some st.
Proof. intros H. unfold process_fill. rewrite H. reflexivity. Qed.

Lemma process_fill_opening st fill :
  degenerate (fill_coin fill) (fill_sz fill) = false ->
  is_opening (position_of st (fill_coin fill)) (normalize_side (fill_side fill)) = true ->
  process_fill st fill =
    Some {| positions :=
              <[fill_coin fill :=
                  open_fill (position_of st (fill_coin fill))
                    (normalize_side (fill_side fill)) (fill_sz fill)
                    (fill_px fill) (fill_time fill)]> (positions st);
            round_trips := round_trips st |}.
Proof.
  intros Hd Ho. unfold process_fill, position_of in *.
  rewrite Hd. cbn zeta. rewrite Ho. reflexivity.
Qed.

Lemma process_fill_closing st fill :
  degenerate (fill_coin fill) (fill_sz fill) = false ->
  is_opening (position_of st (fill_coin fill)) (normalize_side (fill_side fill)) = false ->
  process_fill st fill =
    match close_fill (position_of st (fill_coin fill)) (fill_coin fill)
            (fill_sz fill) (fill_px fill) (fill_time fill) (Qabs (fill_fee fill)) with
    | Some (rt, pos') =>
        Some {| positions := <[fill_coin fill := pos']> (positions st);
                round_trips := round_trips st ++ [rt] |}
    | None => None
    end.
Proof.
  intros Hd Ho. unfold process_fill, position_of in *.
  rewrite Hd. cbn zeta. rewrite Ho.
  destruct (close_fill _ _ _ _ _ _) as [[rt pos']|]; reflexivity.
Qed.

(** What a successful [close_fill] returns. *)
Lemma close_fill_Some pos coin amount price timestamp fee rt pos' :
  close_fill pos coin amount price timestamp fee = Some (rt, pos') ->
  exists pct d,
    realized_pnl_pct pos (avg_entry pos) price = Some pct /\
    pos_side pos = Some d /\
    rt = {| symbol := coin; rt_side := pos_side pos;
            entry_price := avg_entry pos; exit_price := price;
            quantity := py_min amount (total_amount pos);
            pnl_usd := realized_pnl pos (avg_entry pos) price
                         (py_min amount (total_amount pos));
            pnl_pct := pct;
            entry_time := first_entry_time pos timestamp;
            exit_time := timestamp; rt_fee := fee |} /\
    pos' = after_close pos (py_min amount (total_amount pos)).
Proof.
  unfold close_fill. intros H.
  destruct (realized_pnl_pct pos (avg_entry pos) price) as [pct|] eqn:Ep;
    [|discriminate].
  destruct (pos_side pos) as [d|] eqn:Es; [|discriminate].
  cbn in H. inversion H; subst. exists pct, d. auto.
Qed.

Lemma process_fill_inv st fill st' :
  process_fill st fill = Some st' -> step_kind st fill st'.
Proof.
  intros H.
  destruct (degenerate (fill_coin fill) (fill_sz fill)) eqn:Hd.
  - rewrite process_fill_degenerate in H by exact Hd.
    inversion H; subst. now apply step_skip.
  - destruct (is_opening (position_of st (fill_coin fill))
                (normalize_side (fill_side fill))) eqn:Ho.
    + rewrite process_fill_opening in H by assumption.
      inversion H; subst. now apply step_open.
    + rewrite process_fill_closing in H by assumption.
      destruct (close_fill _ _ _ _ _ _) as [[rt pos']|] eqn:Ec; [|discriminate].
      inversion H; subst. eapply step_close; eauto.
Qed.

(** ** The loop of the matcher *)

Lemma match_fills_app st l1 l2 :
  match_fills st (l1 ++ l2) = st1 ← match_fills st l1; match_fills st1 l2.
Proof.
  revert st. induction l1 as [|f l1 IH]; intros st; cbn; [reflexivity|].
  destruct (process_fill st f) as [st'|]; cbn; [apply IH | reflexivity].
Qed.

(** A round trip of the final list was appended by one of the fills. *)
Lemma match_fills_emitted l : forall st stf,
  match_fills st l = Some stf ->
  forall rt, In rt (round_trips stf) ->
    In rt (round_trips st) \/
    exists pre fill post st1,
      l = pre ++ fill :: post /\
      match_fills st pre = Some st1 /\
      emitted_by st1 fill rt.
Proof.
  induction l as [|f l IH]; intros st stf H rt Hin; cbn in H.
  - inversion H; subst. now left.
  - destruct (process_fill st f) as [st1|] eqn:Hp; [|discriminate]. cbn in H.
    destruct (IH _ _ H rt Hin) as [Hold | (pre & fill & post & st2 & -> & Hm & He)].
    + destruct (process_fill_inv _ _ _ Hp) as [_ -> | _ _ -> | rt0 pos' Hd Ho Hc ->];
        cbn in Hold; auto.
      apply in_app_or in Hold. destruct Hold as [Hold | [<- | []]]; [now left|].
      right. exists [], f, l, st. split; [reflexivity|]. split; [reflexivity|].
      split; [exact Hd|]. split; [exact Ho|]. now exists pos'.
    + right. exists (f :: pre), fill, post, st2.
      split; [reflexivity|]. split; [|exact He].
      cbn. rewrite Hp. exact Hm.
Qed.

(** *** Sorting *)

Lemma insert_by_time_Forall (P : Fill -> Prop) f l :
  P f -> Forall P l -> Forall P (insert_by_time f l).
Proof.
  intros Hf Hl. induction Hl as [|g l Hg Hl IH]; cbn.
  - constructor; auto.
  - destruct (fill_time f <=? fill_time g); repeat constructor; auto.
Qed.

Lemma insert_by_time_sorted f l :
  StronglySorted time_le l -> StronglySorted time_le (insert_by_time f l).
Proof.
  induction 1 as [|g l Hs IH Hall]; cbn.
  - repeat constructor.
  - destruct (fill_time f <=? fill_time g) eqn:E.
    + apply Z.leb_le in E. constructor.
      * constructor; assumption.
      * constructor; [exact E|].
        eapply Forall_impl; [exact Hall|]. unfold time_le. intros; lia.
    + apply Z.leb_gt in E. constructor; [exact IH|].
      apply insert_by_time_Forall; [unfold time_le; lia | exact Hall].
Qed.

Lemma sorted_by_time_sorted l : StronglySorted time_le (sorted_by_time l).
Proof.
  induction l as [|f l IH]; cbn; [constructor | now apply insert_by_time_sorted].
Qed.

(** Sorting only reorders the fills. *)
Lemma insert_by_time_perm f l : Permutation (f :: l) (insert_by_time f l).
Proof.
  induction l as [|g l IH]; cbn; [reflexivity|].
  destruct (fill_time f <=? fill_time g); [reflexivity|].
  rewrite perm_swap. now constructor.
Qed.

Lemma sorted_by_time_perm l : Permutation l (sorted_by_time l).
Proof.
  induction l as [|f l IH]; cbn; [reflexivity|].
  rewrite <- insert_by_time_perm. now constructor.
Qed.

(** *** The invariant *)

Lemma matcher_inv_initial rest : matcher_inv initial_state rest.
Proof. intros coin pos H. cbn in H. rewrite lookup_empty in H. discriminate. Qed.

Lemma flat_position_ok rest :
  head_earliest flat_position /\ has_entry_when_open flat_position /\
  entries_before rest flat_position.
Proof.
  repeat split.
  - intros H. exfalso. apply H. reflexivity.
  - constructor.
Qed.

Lemma position_of_ok st rest coin :
  matcher_inv st rest ->
  head_earliest (position_of st coin) /\
  has_entry_when_open (position_of st coin) /\
  entries_before rest (position_of st coin).
Proof.
  intros Hinv. unfold position_of.
  destruct (positions st !! coin) as [pos|] eqn:E; cbn.
  - exact (Hinv _ _ E).
  - apply flat_position_ok.
Qed.

Lemma is_opening_false_open pos side :
  is_opening pos side = false -> ~ (total_amount pos == 0)%Q.
Proof.
  unfold is_opening. intros H.
  apply orb_false_iff in H as [H _]. apply orb_false_iff in H as [H _].
  now apply Qeq_bool_false.
Qed.

Lemma open_fill_ok pos side amount price timestamp rest :
  head_earliest pos -> entries_before rest pos ->
  Forall (fun e => e_timestamp e <= timestamp) (entries pos) ->
  Forall (fun f => timestamp <= fill_time f) rest ->
  head_earliest (open_fill pos side amount price timestamp) /\
  has_entry_when_open (open_fill pos side amount price timestamp) /\
  entries_before rest (open_fill pos side amount price timestamp).
Proof.
  intros Hh Hb Hle Hrest. unfold head_earliest, has_entry_when_open, entries_before in *.
  cbn. repeat split.
  - destruct (entries pos) as [|e es] eqn:E; cbn.
    + repeat constructor. cbn. lia.
    + change (Forall (fun e' => e_timestamp e <= e_timestamp e')
                ((e :: es) ++ [mkEntry timestamp price amount side])).
      apply Forall_app. split; [exact Hh|].
      repeat constructor. cbn. now inversion Hle.
  - intros _. destruct (entries pos); discriminate.
  - apply Forall_app. split; [exact Hb|]. repeat constructor. exact Hrest.
Qed.

Lemma after_close_ok pos q rest :
  ~ (total_amount pos == 0)%Q ->
  head_earliest pos -> has_entry_when_open pos -> entries_before rest pos ->
  head_earliest (after_close pos q) /\
  has_entry_when_open (after_close pos q) /\
  entries_before rest (after_close pos q).
Proof.
  intros Hne Hh Ho Hb. unfold after_close.
  destruct (Qle_bool (total_amount pos - q) 0); [apply flat_position_ok|].
  repeat split; auto. intros _. cbn. now apply Ho.
Qed.

Lemma entries_before_tail f rest pos :
  entries_before (f :: rest) pos -> entries_before rest pos.
Proof.
  unfold entries_before. intros H. eapply Forall_impl; [exact H|].
  intros e He. now inversion He.
Qed.

Lemma entries_before_head f rest pos :
  entries_before (f :: rest) pos ->
  Forall (fun e => e_timestamp e <= fill_time f) (entries pos).
Proof.
  unfold entries_before. intros H. eapply Forall_impl; [exact H|].
  intros e He. now inversion He.
Qed.

(** One iteration keeps the invariant, whatever branch it takes. *)
Lemma process_fill_inv_step st f rest st' :
  Forall (time_le f) rest ->
  matcher_inv st (f :: rest) ->
  process_fill st f = Some st' ->
  matcher_inv st' rest.
Proof.
  intros Hs Hinv Hp.
  pose proof (position_of_ok st (f :: rest) (fill_coin f) Hinv) as (Hh & Ho & Hb).
  assert (Hother : forall coin pos, positions st !! coin = Some pos ->
            head_earliest pos /\ has_entry_when_open pos /\ entries_before rest pos).
  { intros coin pos E. destruct (Hinv _ _ E) as (? & ? & ?).
    repeat split; eauto using entries_before_tail. }
  destruct (process_fill_inv _ _ _ Hp) as [_ -> | _ _ -> | rt pos' _ Hop Hc ->];
    [exact Hother | |]; intros coin pos E; cbn in E;
    (destruct (decide (fill_coin f = coin)) as [<-|Hne];
     [rewrite lookup_insert_eq in E; inversion E; subst; clear E
     |rewrite lookup_insert_ne in E by exact Hne; exact (Hother _ _ E)]).
  - apply open_fill_ok; eauto using entries_before_tail, entries_before_head.
  - apply close_fill_Some in Hc as (pct & d & _ & _ & _ & ->).
    apply after_close_ok; eauto using entries_before_tail, is_opening_false_open.
Qed.

Lemma StronglySorted_app_inv_r {A} (R : A -> A -> Prop) l1 l2 :
  StronglySorted R (l1 ++ l2) -> StronglySorted R l2.
Proof.
  induction l1 as [|x l1 IH]; cbn; [auto|]. intros H. inversion H; auto.
Qed.

(** The invariant holds wherever the loop has got to. *)
Lemma match_fills_inv pre : forall st rest st1,
  StronglySorted time_le (pre ++ rest) ->
  matcher_inv st (pre ++ rest) ->
  match_fills st pre = Some st1 ->
  matcher_inv st1 rest.
Proof.
  induction pre as [|f pre IH]; intros st rest st1 Hs Hinv Hm; cbn in *.
  - now inversion Hm; subst.
  - destruct (process_fill st f) as [st'|] eqn:Hp; [|discriminate]. cbn in Hm.
    inversion Hs; subst.
    eapply IH; [eassumption| |exact Hm].
    eapply process_fill_inv_step; eauto.
Qed.

(** ** The filter of line 79 *)

Lemma degenerate_true_iff coin amount :
  degenerate coin amount = true <-> coin = EmptyString \/ (amount == 0)%Q.
Proof.
  unfold degenerate. rewrite orb_true_iff, String.eqb_eq, Qeq_bool_iff.
  reflexivity.
Qed.

(** C10.  The filter of line 79 drops a fill exactly when its coin is empty
    or its size equals zero; a fill of strictly negative size on a named
    coin passes it, and the stream made of the single fill
    [BTC, side B, size -1, price 100] leaves the position of BTC with
    [total_amount = -1 < 0]. *)
Theorem negative_quantity_passes_filter :
  (forall fill,
      degenerate (fill_coin fill) (fill_sz fill) = true <->
      fill_coin fill = EmptyString \/ (fill_sz fill == 0)%Q) /\
  (forall fill,
      fill_coin fill <> EmptyString -> (fill_sz fill < 0)%Q ->
      degenerate (fill_coin fill) (fill_sz fill) = false) /\
  (exists st pos,
      run_matcher 0 [mkFill "BTC" "B" (-1) 100 1000 0] = Some st /\
      positions st !! "BTC" = Some pos /\
      (total_amount pos < 0)%Q).
Proof.
  split; [|split].
  - intros fill. apply degenerate_true_iff.
  - intros fill Hc Hn.
    destruct (degenerate (fill_coin fill) (fill_sz fill)) eqn:E; [|reflexivity].
    apply degenerate_true_iff in E as [E | E]; [contradiction|].
    rewrite E in Hn. exfalso. exact (Qlt_irrefl _ Hn).
  - eexists. eexists. split; [vm_compute; reflexivity|].
    split; [vm_compute; reflexivity|]. reflexivity.
Qed.

Lemma negative_quantity_passes_filter_witness :
  degenerate "BTC" (-1) = false.
Proof.
  apply (proj1 (proj2 negative_quantity_passes_filter)
           (mkFill "BTC" "B" (-1) 100 1000 0)).
  - discriminate.
  - reflexivity.
Defined.

(** ** The opening branch *)

(** C4, as the claim states it, fails: the fill [BTC, side B, size -1,
    price 100] on the flat position is an opening contribution, the
    volume-weighted formula gives 100, and the code stores 0. *)
Lemma opening_average_counterexample :
  let fill := mkFill "BTC" "B" (-1) 100 1000 0 in
  let pos := position_of initial_state "BTC" in
  degenerate (fill_coin fill) (fill_sz fill) = false /\
  is_opening pos (normalize_side (fill_side fill)) = true /\
  exists st' pos',
    process_fill initial_state fill = Some st' /\
    positions st' !! "BTC" = Some pos' /\
    ~ (avg_entry pos' ==
       (avg_entry pos * total_amount pos + fill_px fill * fill_sz fill)
       / (total_amount pos + fill_sz fill))%Q.
Proof.
  cbv zeta. split; [reflexivity|]. split; [reflexivity|].
  eexists. eexists. split; [vm_compute; reflexivity|].
  split; [vm_compute; reflexivity|].
  intros H. vm_compute in H. discriminate H.
Qed.

(** C4, amended.  An opening contribution (the position of the coin has
    [total_amount == 0], or the fill goes the way of the position) does not
    raise and emits nothing; it adds the size of the fill to
    [total_amount], appends the fill to [entries], sets the direction from
    the side of the fill when [total_amount] was zero ([long] for ['buy'],
    [short] otherwise) and keeps it when not, and stores as [avg_entry]
    the volume-weighted average
    [(avg*open_qty + price*qty) / (open_qty + qty)] when the new
    [total_amount] is positive, and 0 when it is not.  For a fill of
    positive size on a position of non-negative [total_amount] the average
    is therefore always the volume-weighted one. *)
Theorem opening_contribution st fill :
  let coin := fill_coin fill in
  let side := normalize_side (fill_side fill) in
  let amount := fill_sz fill in
  let price := fill_px fill in
  let pos := position_of st coin in
  let weighted :=
    ((avg_entry pos * total_amount pos + price * amount)
     / (total_amount pos + amount))%Q in
  degenerate coin amount = false ->
  is_opening pos side = true ->
  exists pos',
    process_fill st fill =
      Some {| positions := <[coin := pos']> (positions st);
              round_trips := round_trips st |} /\
    total_amount pos' = (total_amount pos + amount)%Q /\
    entries pos' = entries pos ++ [mkEntry (fill_time fill) price amount side] /\
    ((total_amount pos == 0)%Q ->
       pos_side pos' = Some (if (side =? "buy")%string then Long else Short)) /\
    (~ (total_amount pos == 0)%Q -> pos_side pos' = pos_side pos) /\
    ((0 < total_amount pos + amount)%Q -> avg_entry pos' = weighted) /\
    ((total_amount pos + amount <= 0)%Q -> avg_entry pos' = 0%Q) /\
    ((0 <= total_amount pos)%Q -> (0 < amount)%Q -> avg_entry pos' = weighted).
Proof.
  intros coin side amount price pos weighted Hd Ho.
  exists (open_fill pos side amount price (fill_time fill)).
  split; [now apply process_fill_opening|].
  assert (Hpos : (0 < total_amount pos + amount)%Q ->
                 avg_entry (open_fill pos side amount price (fill_time fill)) = weighted).
  { intros H. cbn. apply Qlt_bool_iff in H. rewrite H. reflexivity. }
  repeat split; cbn.
  - intros H. apply Qeq_bool_iff in H. now rewrite H.
  - intros H. apply Qeq_bool_false in H. now rewrite H.
  - exact Hpos.
  - intros H. apply Qlt_bool_false in H. now rewrite H.
  - intros H1 H2. apply Hpos. lra.
Qed.

Lemma opening_contribution_witness :
  exists pos',
    process_fill initial_state (mkFill "BTC" "B" 2 100 1000 0) =
      Some {| positions := <["BTC" := pos']> ∅; round_trips := [] |} /\
    avg_entry pos' = ((0 * 0 + 100 * 2) / (0 + 2))%Q.
Proof.
  destruct (opening_contribution initial_state (mkFill "BTC" "B" 2 100 1000 0))
    as (pos' & Hp & _ & _ & _ & _ & Havg & _).
  - reflexivity.
  - reflexivity.
  - exists pos'. split; [exact Hp|]. apply Havg. reflexivity.
Defined.

(** ** Side tokens *)

Lemma normalize_side_unrecognized raw :
  recognized_side raw = false ->
  normalize_side raw = lower raw /\
  normalize_side raw <> "buy" /\ normalize_side raw <> "sell".
Proof.
  unfold recognized_side, normalize_side. intros H.
  apply orb_false_iff in H as [Hb Hs]. rewrite Hb, Hs.
  split; [reflexivity|]. split; intros E; rewrite E in *; discriminate.
Qed.

Lemma is_opening_unrecognized pos side :
  side <> "buy" -> side <> "sell" ->
  is_opening pos side = Qeq_bool (total_amount pos) 0.
Proof.
  intros Hb Hs. unfold is_opening.
  apply String.eqb_neq in Hb, Hs. rewrite Hb, Hs.
  now rewrite !andb_false_r, !orb_false_r.
Qed.

(** ** The closing branch *)

Lemma after_close_total pos q :
  (q <= total_amount pos)%Q ->
  (total_amount (after_close pos q) == total_amount pos - q)%Q.
Proof.
  intros Hq. unfold after_close.
  destruct (Qle_bool (total_amount pos - q) 0) eqn:E; cbn; [|reflexivity].
  apply Qle_bool_iff in E. lra.
Qed.

Lemma after_close_flat pos q :
  (total_amount pos - q <= 0)%Q -> after_close pos q = flat_position.
Proof.
  intros H. unfold after_close. apply Qle_bool_iff in H. now rewrite H.
Qed.

Lemma after_close_partial pos q :
  ~ (total_amount pos - q <= 0)%Q ->
  after_close pos q =
    {| entries := entries pos; pos_side := pos_side pos;
       total_amount := (total_amount pos - q)%Q; avg_entry := avg_entry pos |}.
Proof.
  intros H. unfold after_close.
  destruct (Qle_bool (total_amount pos - q) 0) eqn:E; [|reflexivity].
  apply Qle_bool_iff in E. contradiction.
Qed.

(** C2, as the claim states it, fails: the token [hold] is not in the
    vocabulary, yet a fill carrying it opens a short position on a flat
    coin, and on a long position of 5 it emits a round trip of quantity 2
    and leaves [total_amount = 3]. *)
Lemma unrecognized_side_counterexample :
  recognized_side "hold" = false /\
  (exists st pos,
      process_fill initial_state (mkFill "BTC" "hold" 1 100 1000 0) = Some st /\
      positions st !! "BTC" = Some pos /\
      pos_side pos = Some Short /\ (total_amount pos == 1)%Q /\
      length (entries pos) = 1%nat) /\
  (exists st0 pos0 st rt pos,
      process_fill initial_state (mkFill "BTC" "B" 5 100 1000 0) = Some st0 /\
      positions st0 !! "BTC" = Some pos0 /\ (total_amount pos0 == 5)%Q /\
      process_fill st0 (mkFill "BTC" "hold" 2 110 2000 0) = Some st /\
      round_trips st = [rt] /\ quantity rt = 2%Q /\
      positions st !! "BTC" = Some pos /\ (total_amount pos == 3)%Q).
Proof.
  split; [reflexivity|]. split.
  - eexists. eexists. split; [vm_compute; reflexivity|].
    split; [vm_compute; reflexivity|]. repeat split.
  - eexists. eexists. eexists. eexists. eexists.
    split; [vm_compute; reflexivity|].
    split; [vm_compute; reflexivity|]. split; [reflexivity|].
    split; [vm_compute; reflexivity|].
    split; [reflexivity|]. split; [reflexivity|].
    split; [vm_compute; reflexivity|]. reflexivity.
Qed.

(** C2, amended.  A side token outside the vocabulary is kept as it is
    (lowercased), so it is neither ['buy'] nor ['sell'] and matches neither
    same-direction condition of lines 89-90; the fill is then classified by
    [total_amount] alone.  On a position with [total_amount == 0] it is an
    opening contribution: it opens a [short] position of the size of the
    fill and appends the fill to [entries].  On any other position it is a
    closing contribution: when the iteration does not raise it emits one
    round trip of quantity [min(size, total_amount)] and takes that
    quantity off [total_amount]. *)
Theorem unrecognized_side_is_classified_by_exposure st fill :
  let coin := fill_coin fill in
  let side := normalize_side (fill_side fill) in
  let amount := fill_sz fill in
  let pos := position_of st coin in
  recognized_side (fill_side fill) = false ->
  degenerate coin amount = false ->
  side = lower (fill_side fill) /\ side <> "buy" /\ side <> "sell" /\
  is_opening pos side = Qeq_bool (total_amount pos) 0 /\
  ((total_amount pos == 0)%Q ->
     exists pos',
       process_fill st fill =
         Some {| positions := <[coin := pos']> (positions st);
                 round_trips := round_trips st |} /\
       pos_side pos' = Some Short /\
       total_amount pos' = (total_amount pos + amount)%Q /\
       entries pos' =
         entries pos ++ [mkEntry (fill_time fill) (fill_px fill) amount side]) /\
  (~ (total_amount pos == 0)%Q ->
     forall st', process_fill st fill = Some st' ->
       exists rt pos',
         round_trips st' = round_trips st ++ [rt] /\
         positions st' = <[coin := pos']> (positions st) /\
         quantity rt = py_min amount (total_amount pos) /\
         (total_amount pos' == total_amount pos - quantity rt)%Q).
Proof.
  intros coin side amount pos Hr Hd.
  destruct (normalize_side_unrecognized _ Hr) as (Hl & Hb & Hs).
  fold side in Hl, Hb, Hs.
  pose proof (is_opening_unrecognized pos side Hb Hs) as Ho.
  repeat (split; [assumption|]). split.
  - intros Hz. apply Qeq_bool_iff in Hz.
    exists (open_fill pos side amount (fill_px fill) (fill_time fill)).
    split; [apply process_fill_opening; [exact Hd | fold coin pos side; congruence]|].
    cbn. rewrite Hz. apply String.eqb_neq in Hb. rewrite Hb. auto.
  - intros Hnz st' Hp. apply Qeq_bool_false in Hnz.
    rewrite process_fill_closing in Hp
      by (try exact Hd; fold coin pos side; congruence).
    fold coin pos amount in Hp.
    destruct (close_fill pos coin amount _ _ _) as [[rt pos']|] eqn:Hc;
      [|discriminate].
    inversion Hp; subst st'; clear Hp. exists rt, pos'. cbn.
    apply close_fill_Some in Hc as (pct & d & _ & _ & -> & ->). cbn.
    repeat split. apply after_close_total, py_min_le_r.
Qed.

Lemma unrecognized_side_is_classified_by_exposure_witness :
  normalize_side "hold" <> "buy" /\ normalize_side "hold" <> "sell".
Proof.
  destruct (unrecognized_side_is_classified_by_exposure initial_state
              (mkFill "BTC" "hold" 1 100 1000 0))
    as (_ & Hb & Hs & _).
  - reflexivity.
  - reflexivity.
  - split; [exact Hb | exact Hs].
Defined.

(** C3.  A closing fill that does not raise emits exactly one round trip,
    whose quantity is [min(size, total_amount)]: at most the size of the
    fill, at most the open quantity, and one of the two.  The position of
    the coin loses exactly that quantity; when nothing remains it is the
    flat position again (no entries, no side, zero average), otherwise only
    [total_amount] changed.  A fill larger than the open quantity closes
    the open quantity and leaves the coin flat: the excess opens nothing.
    In particular a long of 5 at 100 closed by a fill of 8 at 110 gives one
    round trip of quantity 5 (realized P&L 50) and a flat position. *)
Theorem capped_close :
  (forall st fill st',
      let coin := fill_coin fill in
      let amount := fill_sz fill in
      let pos := position_of st coin in
      degenerate coin amount = false ->
      is_opening pos (normalize_side (fill_side fill)) = false ->
      process_fill st fill = Some st' ->
      exists rt pos',
        round_trips st' = round_trips st ++ [rt] /\
        positions st' = <[coin := pos']> (positions st) /\
        quantity rt = py_min amount (total_amount pos) /\
        (quantity rt <= amount)%Q /\ (quantity rt <= total_amount pos)%Q /\
        (quantity rt = amount \/ quantity rt = total_amount pos) /\
        (total_amount pos' == total_amount pos - quantity rt)%Q /\
        ((total_amount pos - quantity rt == 0)%Q -> pos' = flat_position) /\
        (~ (total_amount pos - quantity rt == 0)%Q ->
           pos' = {| entries := entries pos; pos_side := pos_side pos;
                     total_amount := (total_amount pos - quantity rt)%Q;
                     avg_entry := avg_entry pos |}) /\
        ((total_amount pos < amount)%Q ->
           quantity rt = total_amount pos /\ pos' = flat_position)) /\
  (let fills := [mkFill "BTC" "B" 5 100 1000 0; mkFill "BTC" "A" 8 110 2000 0] in
   exists rt st,
     get_hl_closed_trades (Some fills) 0 = [rt] /\
     quantity rt = 5%Q /\ (pnl_usd rt == 50)%Q /\
     run_matcher 0 fills = Some st /\
     positions st !! "BTC" = Some flat_position).
Proof.
  split.
  - intros st fill st' coin amount pos Hd Ho Hp.
    rewrite process_fill_closing in Hp by assumption.
    fold coin pos amount in Hp.
    destruct (close_fill pos coin amount _ _ _) as [[rt pos']|] eqn:Hc;
      [|discriminate].
    inversion Hp; subst st'; clear Hp. exists rt, pos'. cbn.
    apply close_fill_Some in Hc as (pct & d & _ & _ & -> & ->). cbn.
    pose proof (py_min_le_l amount (total_amount pos)) as Hl.
    pose proof (py_min_le_r amount (total_amount pos)) as Hr.
    repeat (split; [first [reflexivity | assumption]|]).
    split; [apply py_min_choice|].
    split; [now apply after_close_total|].
    split; [|split].
    + intros H. apply after_close_flat. lra.
    + intros H. apply after_close_partial. lra.
    + intros H. rewrite (py_min_excess _ _ H).
      split; [reflexivity|]. apply after_close_flat. lra.
  - cbv zeta. eexists. eexists.
    split; [vm_compute; reflexivity|]. split; [reflexivity|].
    split; [reflexivity|]. split; [vm_compute; reflexivity|].
    vm_compute. reflexivity.
Qed.

Lemma capped_close_witness :
  exists st0 st' rt,
    process_fill initial_state (mkFill "BTC" "B" 5 100 1000 0) = Some st0 /\
    process_fill st0 (mkFill "BTC" "A" 8 110 2000 0) = Some st' /\
    round_trips st' = round_trips st0 ++ [rt] /\
    quantity rt = total_amount (position_of st0 "BTC") /\
    positions st' = <["BTC" := flat_position]> (positions st0).
Proof.
  pose (st0 := default initial_state
                 (process_fill initial_state (mkFill "BTC" "B" 5 100 1000 0))).
  pose (st' := default initial_state
                 (process_fill st0 (mkFill "BTC" "A" 8 110 2000 0))).
  destruct (proj1 capped_close st0 (mkFill "BTC" "A" 8 110 2000 0) st')
    as (rt & pos' & Hrt & Hpos & _ & _ & _ & _ & _ & _ & _ & Hx).
  - reflexivity.
  - reflexivity.
  - vm_compute. reflexivity.
  - destruct Hx as [Hq Hf]; [reflexivity|].
    exists st0, st', rt. split; [vm_compute; reflexivity|].
    split; [vm_compute; reflexivity|]. split; [exact Hrt|].
    split; [exact Hq|]. rewrite <- Hf. exact Hpos.
Defined.

(** ** Round trips and the fills that emit them *)

Lemma returned_round_trip_emitted fetched since rt :
  In rt (get_hl_closed_trades fetched since) ->
  exists fills pre fill post st,
    fetched = Some fills /\
    sorted_by_time (recent_fills since fills) = pre ++ fill :: post /\
    match_fills initial_state pre = Some st /\
    emitted_by st fill rt.
Proof.
  unfold get_hl_closed_trades, run_matcher.
  destruct fetched as [fills|]; [|intros []].
  destruct (match_fills initial_state _) as [stf|] eqn:Hm; [|intros []].
  intros Hin.
  destruct (match_fills_emitted _ _ _ Hm rt Hin)
    as [[] | (pre & fill & post & st & Hl & Hpre & He)].
  exists fills, pre, fill, post, st. auto.
Qed.

Lemma emitted_pnl st fill rt :
  emitted_by st fill rt ->
  (rt_side rt = Some Long /\
   pnl_usd rt = ((exit_price rt - entry_price rt) * quantity rt)%Q) \/
  (rt_side rt = Some Short /\
   pnl_usd rt = ((entry_price rt - exit_price rt) * quantity rt)%Q).
Proof.
  intros (_ & _ & pos' & Hc).
  apply close_fill_Some in Hc as (pct & d & _ & Hs & -> & _). cbn.
  unfold realized_pnl, is_long. rewrite Hs. destruct d; cbn; auto.
Qed.

(** C5.  Every round trip a fill emits, and so every round trip
    [get_hl_closed_trades] returns, is long or short, with realized P&L
    [(exit_price - entry_price) * quantity] when long and
    [(entry_price - exit_price) * quantity] when short.  A short of 3
    opened at 100 by a sell fill and closed at 90 has realized P&L +30. *)
Theorem realized_pnl_by_direction :
  (forall st fill rt,
      emitted_by st fill rt ->
      (rt_side rt = Some Long /\
       pnl_usd rt = ((exit_price rt - entry_price rt) * quantity rt)%Q) \/
      (rt_side rt = Some Short /\
       pnl_usd rt = ((entry_price rt - exit_price rt) * quantity rt)%Q)) /\
  (forall fetched since rt,
      In rt (get_hl_closed_trades fetched since) ->
      (rt_side rt = Some Long /\
       pnl_usd rt = ((exit_price rt - entry_price rt) * quantity rt)%Q) \/
      (rt_side rt = Some Short /\
       pnl_usd rt = ((entry_price rt - exit_price rt) * quantity rt)%Q)) /\
  (exists rt,
      get_hl_closed_trades
        (Some [mkFill "ETH" "A" 3 100 1000 0; mkFill "ETH" "B" 3 90 2000 0]) 0
        = [rt] /\
      rt_side rt = Some Short /\ (entry_price rt == 100)%Q /\
      exit_price rt = 90%Q /\ quantity rt = 3%Q /\ (pnl_usd rt == 30)%Q).
Proof.
  split; [exact emitted_pnl|]. split.
  - intros fetched since rt Hin.
    apply returned_round_trip_emitted in Hin
      as (fills & pre & fill & post & st & _ & _ & _ & He).
    exact (emitted_pnl _ _ _ He).
  - eexists. split; [vm_compute; reflexivity|]. repeat split.
Qed.

Lemma realized_pnl_by_direction_witness :
  exists rt,
    In rt (get_hl_closed_trades
             (Some [mkFill "ETH" "A" 3 100 1000 0; mkFill "ETH" "B" 3 90 2000 0]) 0) /\
    rt_side rt = Some Short /\
    pnl_usd rt = ((entry_price rt - exit_price rt) * quantity rt)%Q.
Proof.
  eexists. split; [vm_compute; left; reflexivity|].
  destruct (proj1 (proj2 realized_pnl_by_direction)
              (Some [mkFill "ETH" "A" 3 100 1000 0; mkFill "ETH" "B" 3 90 2000 0])
              0 _ ltac:(vm_compute; left; reflexivity))
    as [[Hs _] | [Hs Hp]].
  - discriminate Hs.
  - split; [exact Hs | exact Hp].
Defined.

(** ** Streams without negative sizes *)

Lemma flat_position_cleared : cleared_when_flat flat_position.
Proof. split; [apply Qle_refl | reflexivity]. Qed.

Lemma position_of_cleared st coin :
  (forall c p, positions st !! c = Some p -> cleared_when_flat p) ->
  cleared_when_flat (position_of st coin).
Proof.
  intros H. unfold position_of.
  destruct (positions st !! coin) as [p|] eqn:E; cbn;
    [exact (H _ _ E) | apply flat_position_cleared].
Qed.

Lemma after_close_cleared pos q : cleared_when_flat (after_close pos q).
Proof.
  unfold after_close.
  destruct (Qle_bool (total_amount pos - q) 0) eqn:E;
    [apply flat_position_cleared|].
  assert (H : (0 < total_amount pos - q)%Q)
    by (apply Qlt_bool_iff; unfold Qlt_bool; now rewrite E).
  split; cbn; [lra | intros Hz; lra].
Qed.

Lemma process_fill_cleared st f st' :
  (0 <= fill_sz f)%Q ->
  (forall c p, positions st !! c = Some p -> cleared_when_flat p) ->
  process_fill st f = Some st' ->
  forall c p, positions st' !! c = Some p -> cleared_when_flat p.
Proof.
  intros Hsz Hinv Hp.
  pose proof (position_of_cleared st (fill_coin f) Hinv) as [Hge _].
  destruct (process_fill_inv _ _ _ Hp) as [_ -> | Hd _ -> | rt pos' _ _ Hc ->];
    [exact Hinv | |]; intros c p E; cbn in E;
    (destruct (decide (fill_coin f = c)) as [<-|Hne];
     [rewrite lookup_insert_eq in E; inversion E; subst; clear E
     |rewrite lookup_insert_ne in E by exact Hne; exact (Hinv _ _ E)]).
  - assert (Hnz : ~ (fill_sz f == 0)%Q).
    { intros Hz. apply Qeq_bool_iff in Hz. unfold degenerate in Hd.
      rewrite Hz, orb_true_r in Hd. discriminate. }
    split; cbn; [lra | intros Hz; lra].
  - apply close_fill_Some in Hc as (pct & d & _ & _ & _ & ->).
    apply after_close_cleared.
Qed.

Lemma match_fills_cleared l : forall st st',
  Forall (fun f => (0 <= fill_sz f)%Q) l ->
  (forall c p, positions st !! c = Some p -> cleared_when_flat p) ->
  match_fills st l = Some st' ->
  forall c p, positions st' !! c = Some p -> cleared_when_flat p.
Proof.
  induction l as [|f l IH]; intros st st' Hall Hinv Hm; cbn in Hm.
  - now inversion Hm; subst.
  - destruct (process_fill st f) as [st1|] eqn:Hp; [|discriminate]. cbn in Hm.
    inversion Hall; subst.
    eapply IH; [eassumption | | exact Hm].
    eapply process_fill_cleared; eauto.
Qed.

Lemma recent_fills_Forall (P : Fill -> Prop) since fills :
  Forall P fills -> Forall P (recent_fills since fills).
Proof.
  intros H. unfold recent_fills. apply Forall_forall. intros f Hin.
  apply list_elem_of_In, filter_In in Hin as [Hin _].
  rewrite Forall_forall in H. apply H. now apply list_elem_of_In.
Qed.

Lemma sorted_by_time_Forall (P : Fill -> Prop) l :
  Forall P l -> Forall P (sorted_by_time l).
Proof.
  induction 1; cbn; [constructor | now apply insert_by_time_Forall].
Qed.

(** ** Entry time *)

(** C8, as the claim states it, fails.  [entries] is emptied only when a
    close resets the position (line 126), not when an opening fill brings
    [total_amount] to zero.  On the fills of BTC
    [B 1 at 1000; B -1 at 2000; B 2 at 3000; A 2 at 4000] the position is
    flat ([total_amount == 0]) after the second fill and the only entry
    recorded since is the one of time 3000, yet the round trip the last
    fill emits has [entry_time = 1000]. *)
Lemma entry_time_counterexample :
  let f1 := mkFill "BTC" "B" 1 100 1000 0 in
  let f2 := mkFill "BTC" "B" (-1) 100 2000 0 in
  let f3 := mkFill "BTC" "B" 2 100 3000 0 in
  let f4 := mkFill "BTC" "A" 2 110 4000 0 in
  exists st2 pos2 st3 rt,
    match_fills initial_state [f1; f2] = Some st2 /\
    positions st2 !! "BTC" = Some pos2 /\
    (total_amount pos2 == 0)%Q /\
    process_fill st2 f3 = Some st3 /\
    is_opening (position_of st2 "BTC") (normalize_side (fill_side f3)) = true /\
    emitted_by st3 f4 rt /\
    get_hl_closed_trades (Some [f1; f2; f3; f4]) 0 = [rt] /\
    entry_time rt = 1000 /\
    entry_time rt < fill_time f3.
Proof.
  cbv zeta. eexists. eexists. eexists. eexists.
  split; [vm_compute; reflexivity|].
  split; [vm_compute; reflexivity|].
  split; [reflexivity|].
  split; [vm_compute; reflexivity|].
  split; [vm_compute; reflexivity|].
  split.
  { split; [reflexivity|]. split; [vm_compute; reflexivity|].
    eexists. vm_compute. reflexivity. }
  split; [vm_compute; reflexivity|].
  split; reflexivity.
Qed.

(** C8, amended.  Wherever the loop has got to in the sorted fills, a round
    trip the next fill emits carries as [entry_time] the timestamp of the
    first element of the [entries] of the position it closes; that list is
    not empty and its first element is at least as early as every element
    of it.  The close leaves the coin either flat or with the same
    [entries], so the same holds for the closes that follow a partial
    close.  [entries] holds what was recorded since a close last reset the
    position (or since the coin first appeared).  In a stream without
    negative sizes a position whose [total_amount] is zero has no entries:
    the entries of a position are then the ones recorded since its
    [total_amount] was last zero. *)
Theorem entry_time_is_earliest_entry fills since pre fill post st rt :
  let pos := position_of st (fill_coin fill) in
  sorted_by_time (recent_fills since fills) = pre ++ fill :: post ->
  match_fills initial_state pre = Some st ->
  emitted_by st fill rt ->
  exists e es pos',
    entries pos = e :: es /\
    entry_time rt = e_timestamp e /\
    Forall (fun e' => e_timestamp e <= e_timestamp e') (entries pos) /\
    close_fill pos (fill_coin fill) (fill_sz fill) (fill_px fill)
      (fill_time fill) (Qabs (fill_fee fill)) = Some (rt, pos') /\
    (pos' = flat_position \/ entries pos' = entries pos) /\
    (Forall (fun f => (0 <= fill_sz f)%Q) fills ->
       forall c p, positions st !! c = Some p ->
         (total_amount p == 0)%Q -> entries p = []).
Proof.
  intros pos Hsorted Hpre (Hd & Ho & pos' & Hc).
  assert (Hclr : Forall (fun f => (0 <= fill_sz f)%Q) fills ->
            forall c p, positions st !! c = Some p ->
              (total_amount p == 0)%Q -> entries p = []).
  { intros Hall c p E.
    assert (Hsrt : Forall (fun f => (0 <= fill_sz f)%Q) (pre ++ fill :: post)).
    { rewrite <- Hsorted.
      now apply sorted_by_time_Forall, recent_fills_Forall. }
    apply Forall_app in Hsrt as [Hp _].
    refine (proj2 (match_fills_cleared pre initial_state st Hp _ Hpre c p E)).
    intros c0 p0 E0. cbn in E0. rewrite lookup_empty in E0. discriminate. }
  assert (Hinv : matcher_inv st (fill :: post)).
  { eapply match_fills_inv; [| apply matcher_inv_initial | exact Hpre].
    rewrite <- Hsorted. apply sorted_by_time_sorted. }
  destruct (position_of_ok st _ (fill_coin fill) Hinv) as (Hhead & Hopen & _).
  fold pos in Hhead, Hopen, Ho, Hc.
  pose proof (Hopen (is_opening_false_open _ _ Ho)) as Hne.
  unfold head_earliest in Hhead.
  destruct (entries pos) as [|e es] eqn:E; [congruence|].
  exists e, es, pos'. split; [reflexivity|].
  pose proof Hc as Hc'.
  apply close_fill_Some in Hc' as (pct & d & _ & _ & Hrt & Hpos').
  split. { rewrite Hrt. cbn. unfold first_entry_time. now rewrite E. }
  split; [exact Hhead|]. split; [exact Hc|].
  split; [|exact Hclr].
  rewrite Hpos'. unfold after_close.
  destruct (Qle_bool _ 0); [now left | right; cbn; exact E].
Qed.

Lemma entry_time_is_earliest_entry_witness :
  exists rt e,
    In rt (get_hl_closed_trades
             (Some [mkFill "BTC" "A" 2 125 4000 0; mkFill "BTC" "B" 1 110 2000 0;
                    mkFill "BTC" "A" 1 120 3000 0; mkFill "BTC" "B" 2 100 1000 0]) 0) /\
    exit_time rt = 4000 /\
    entry_time rt = e_timestamp e /\ e_timestamp e = 1000.
Proof.
  pose (fills := [mkFill "BTC" "A" 2 125 4000 0; mkFill "BTC" "B" 1 110 2000 0;
                  mkFill "BTC" "A" 1 120 3000 0; mkFill "BTC" "B" 2 100 1000 0]).
  pose (pre := [mkFill "BTC" "B" 2 100 1000 0; mkFill "BTC" "B" 1 110 2000 0;
                mkFill "BTC" "A" 1 120 3000 0]).
  pose (st := default initial_state (match_fills initial_state pre)).
  pose (pos := position_of st "BTC").
  pose (rt := {| symbol := "BTC"; rt_side := pos_side pos;
                 entry_price := avg_entry pos; exit_price := 125;
                 quantity := py_min 2 (total_amount pos);
                 pnl_usd := realized_pnl pos (avg_entry pos) 125
                              (py_min 2 (total_amount pos));
                 pnl_pct := ((125 / avg_entry pos - 1) * 100)%Q;
                 entry_time := first_entry_time pos 4000;
                 exit_time := 4000; rt_fee := Qabs 0 |}).
  destruct (entry_time_is_earliest_entry fills 0 pre
              (mkFill "BTC" "A" 2 125 4000 0) [] st rt)
    as (e & es & pos' & He & Ht & _).
  - vm_compute. reflexivity.
  - vm_compute. reflexivity.
  - split; [reflexivity|]. split; [reflexivity|].
    eexists. vm_compute. reflexivity.
  - exists rt, e. split; [vm_compute; right; left; reflexivity|].
    split; [reflexivity|]. split; [exact Ht|].
    vm_compute in He. now inversion He.
Defined.

(** ** A zero divisor in the percentage *)

(** The handler of lines 130-134: once an iteration raises, nothing of the
    stream is returned. *)
Lemma raise_discards_everything fills since pre fill post st :
  sorted_by_time (recent_fills since fills) = pre ++ fill :: post ->
  match_fills initial_state pre = Some st ->
  process_fill st fill = None ->
  get_hl_closed_trades (Some fills) since = [].
Proof.
  intros Hs Hpre Hp. unfold get_hl_closed_trades, run_matcher.
  rewrite Hs, match_fills_app, Hpre. cbn. rewrite Hp. reflexivity.
Qed.

(** A close of a long position whose average entry price is zero raises. *)
Lemma close_long_zero_entry_raises st fill :
  let pos := position_of st (fill_coin fill) in
  degenerate (fill_coin fill) (fill_sz fill) = false ->
  is_opening pos (normalize_side (fill_side fill)) = false ->
  pos_side pos = Some Long ->
  (avg_entry pos == 0)%Q ->
  process_fill st fill = None.
Proof.
  intros pos Hd Ho Hl Hz. rewrite process_fill_closing by assumption.
  fold pos. unfold close_fill, realized_pnl_pct, is_long, py_div.
  rewrite Hl. cbn. apply Qeq_bool_iff in Hz. rewrite Hz. reflexivity.
Qed.

(** C1, on the code.  The fills of BTC and ETH each open and close a
    position; alone they give two round trips.  With the two fills of SOL
    between them (a long opened at price 0, then closed) the close of SOL
    divides by the zero average entry price, the loop raises, and the
    function returns the empty list: the round trips of BTC and ETH are
    lost with it. *)
Theorem zero_entry_price_discards_all_round_trips :
  let btc := [mkFill "BTC" "B" 5 100 1000 0; mkFill "BTC" "A" 5 110 2000 0] in
  let sol := [mkFill "SOL" "B" 1 0 3000 0; mkFill "SOL" "A" 1 5 4000 0] in
  let eth := [mkFill "ETH" "B" 2 50 5000 0; mkFill "ETH" "A" 2 60 6000 0] in
  length (get_hl_closed_trades (Some (btc ++ eth)) 0) = 2%nat /\
  run_matcher 0 (btc ++ sol ++ eth) = None /\
  get_hl_closed_trades (Some (btc ++ sol ++ eth)) 0 = [].
Proof. cbv zeta. split; [|split]; vm_compute; reflexivity. Qed.

(** ** One iteration of the writer *)

Lemma count_existing_pos table user_id sym entry_dt exit_dt :
  (0 <? count_existing table user_id sym entry_dt exit_dt)%nat = true <->
  exists row, In row table /\ dedup_match user_id sym entry_dt exit_dt row = true.
Proof.
  unfold count_existing. rewrite Nat.ltb_lt. split.
  - intros H.
    destruct (List.filter (dedup_match user_id sym entry_dt exit_dt) table)
      as [|row l] eqn:E; [cbn in H; lia|].
    exists row. apply filter_In. rewrite E. now left.
  - intros (row & Hin & Hm).
    assert (Hf : In row (List.filter (dedup_match user_id sym entry_dt exit_dt) table))
      by (apply filter_In; auto).
    destruct (List.filter _ table); [destruct Hf | cbn; lia].
Qed.

Lemma dedup_match_self user_id rt fee_amount entry_dt exit_dt :
  dedup_match user_id (symbol rt) entry_dt exit_dt
    (ledger_row user_id rt fee_amount entry_dt exit_dt) = true.
Proof.
  unfold dedup_match. cbn.
  rewrite Z.eqb_refl, String.eqb_refl, !Z.sub_diag. reflexivity.
Qed.

Lemma try_insert_Inserted raises user_id fee_rate table rt row :
  try_insert raises user_id fee_rate table rt = Inserted row ->
  exists entry_dt exit_dt,
    to_datetime (entry_time rt) = Some entry_dt /\
    to_datetime (exit_time rt) = Some exit_dt /\
    raises Fetchval = false /\ raises Execute = false /\
    (forall old, In old table ->
       dedup_match user_id (symbol rt) entry_dt exit_dt old = false) /\
    row = ledger_row user_id rt (fee_amount_of fee_rate rt) entry_dt exit_dt.
Proof.
  unfold try_insert. intros H.
  destruct (to_datetime (entry_time rt)) as [entry_dt|]; [|discriminate].
  destruct (to_datetime (exit_time rt)) as [exit_dt|]; [|discriminate].
  destruct (raises Fetchval); [discriminate|].
  destruct (0 <? count_existing _ _ _ _ _)%nat eqn:Ec; [discriminate|].
  destruct (raises Execute); [discriminate|].
  inversion H; subst. exists entry_dt, exit_dt. repeat split; auto.
  intros old Hin. destruct (dedup_match _ _ _ _ old) eqn:Em; [|reflexivity].
  assert (Hc : (0 <? count_existing table user_id (symbol rt) entry_dt exit_dt)%nat = true)
    by (apply count_existing_pos; eauto).
  congruence.
Qed.

Lemma try_insert_matched raises user_id fee_rate table rt :
  matched user_id rt table ->
  try_insert raises user_id fee_rate table rt =
    if raises Fetchval then Raised else Skipped.
Proof.
  intros (entry_dt & exit_dt & row & He & Hx & Hin & Hm).
  unfold try_insert. rewrite He, Hx.
  destruct (raises Fetchval); [reflexivity|].
  assert (Hc : (0 <? count_existing table user_id (symbol rt) entry_dt exit_dt)%nat = true)
    by (apply count_existing_pos; eauto).
  now rewrite Hc.
Qed.

Lemma try_insert_unconvertible raises user_id fee_rate table rt :
  unconvertible rt -> try_insert raises user_id fee_rate table rt = Raised.
Proof.
  unfold try_insert. intros [H | H]; rewrite H; [reflexivity|].
  now destruct (to_datetime (entry_time rt)).
Qed.

Lemma writer_step_matched raises user_id fee_rate st rt :
  matched user_id rt (trades st) ->
  writer_step raises user_id fee_rate st rt = st.
Proof.
  intros H. unfold writer_step. rewrite try_insert_matched by exact H.
  now destruct (raises Fetchval).
Qed.

Lemma writer_step_unconvertible raises user_id fee_rate st rt :
  unconvertible rt -> writer_step raises user_id fee_rate st rt = st.
Proof.
  intros H. unfold writer_step. now rewrite try_insert_unconvertible.
Qed.

Lemma writer_step_Raised raises user_id fee_rate st rt :
  try_insert raises user_id fee_rate (trades st) rt = Raised ->
  writer_step raises user_id fee_rate st rt = st.
Proof. intros H. unfold writer_step. now rewrite H. Qed.

Lemma matched_app user_id rt table new :
  matched user_id rt table -> matched user_id rt (table ++ new).
Proof.
  intros (entry_dt & exit_dt & row & He & Hx & Hin & Hm).
  exists entry_dt, exit_dt, row. repeat split; auto. apply in_or_app. now left.
Qed.

(** An iteration only appends to the table. *)
Lemma writer_step_trades raises user_id fee_rate st rt :
  exists new, trades (writer_step raises user_id fee_rate st rt) = trades st ++ new.
Proof.
  unfold writer_step.
  destruct (try_insert _ _ _ _ _) as [row| |]; cbn;
    [now exists [row] | exists []; now rewrite app_nil_r ..].
Qed.

(** When the store does not raise, the round trip is settled once its
    iteration is over: a row matches it, or it has no [datetime]. *)
Lemma writer_step_settles raises user_id fee_rate st rt :
  (forall op, raises op = false) ->
  matched user_id rt (trades (writer_step raises user_id fee_rate st rt)) \/
  unconvertible rt.
Proof.
  intros Hr. unfold writer_step, try_insert, unconvertible.
  destruct (to_datetime (entry_time rt)) as [entry_dt|] eqn:He; [|now right; left].
  destruct (to_datetime (exit_time rt)) as [exit_dt|] eqn:Hx; [|now right; right].
  rewrite !Hr. left.
  destruct (0 <? count_existing _ _ _ _ _)%nat eqn:Ec.
  - apply count_existing_pos in Ec as (row & Hin & Hm).
    exists entry_dt, exit_dt, row. auto.
  - cbn. exists entry_dt, exit_dt, (ledger_row user_id rt (fee_amount_of fee_rate rt) entry_dt exit_dt).
    repeat split; auto using dedup_match_self.
    apply in_or_app. right. now left.
Qed.

(** ** The loop of the writer *)

Lemma backfill_loop_app raises user_id fee_rate l1 : forall i st l2,
  backfill_loop raises i user_id fee_rate st (l1 ++ l2) =
  backfill_loop raises (i + length l1) user_id fee_rate
    (backfill_loop raises i user_id fee_rate st l1) l2.
Proof.
  induction l1 as [|rt l1 IH]; intros i st l2; cbn.
  - now rewrite Nat.add_0_r.
  - rewrite IH. f_equal. lia.
Qed.

(** The table grows by the rows inserted, and the three aggregates are
    the count and the sums of exactly those rows. *)
Lemma backfill_loop_aggregates raises user_id fee_rate rts : forall i st,
  exists new,
    let st' := backfill_loop raises i user_id fee_rate st rts in
    trades st' = trades st ++ new /\
    inserted st' = (inserted st + length new)%nat /\
    total_pnl st' =
      fold_left (fun acc row => (acc + profit_usd row)%Q) new (total_pnl st) /\
    total_fees st' =
      fold_left (fun acc row => (acc + fee_usd row)%Q) new (total_fees st).
Proof.
  induction rts as [|rt rts IH]; intros i st; cbn.
  - exists []. cbn. rewrite app_nil_r. auto.
  - destruct (IH (S i) (writer_step (raises i) user_id fee_rate st rt))
      as (new & Ht & Hi & Hp & Hf).
    cbv zeta in *. rewrite Ht, Hi, Hp, Hf. unfold writer_step.
    destruct (try_insert _ _ _ _ _) as [row| |] eqn:E;
      [|exists new; auto ..].
    apply try_insert_Inserted in E as (ed & xd & _ & _ & _ & _ & _ & ->).
    exists (ledger_row user_id rt (fee_amount_of fee_rate rt) ed xd :: new). cbn.
    rewrite <- app_assoc. repeat split; auto.
Qed.

Lemma backfill_loop_trades raises user_id fee_rate rts i st :
  exists new,
    trades (backfill_loop raises i user_id fee_rate st rts) = trades st ++ new.
Proof.
  destruct (backfill_loop_aggregates raises user_id fee_rate rts i st)
    as (new & H & _). now exists new.
Qed.

(** A batch of settled round trips changes nothing. *)
Lemma backfill_loop_settled raises user_id fee_rate rts : forall i st,
  Forall (fun rt => matched user_id rt (trades st) \/ unconvertible rt) rts ->
  backfill_loop raises i user_id fee_rate st rts = st.
Proof.
  induction rts as [|rt rts IH]; intros i st H; cbn; [reflexivity|].
  inversion H as [|? ? Hrt Hrest]; subst.
  assert (Hs : writer_step (raises i) user_id fee_rate st rt = st)
    by (destruct Hrt; [now apply writer_step_matched
                      | now apply writer_step_unconvertible]).
  rewrite Hs. now apply IH.
Qed.

(** After a run in which the store never raised, every round trip of the
    batch is settled. *)
Lemma backfill_loop_settles raises user_id fee_rate rts : forall i st,
  (forall j op, raises j op = false) ->
  Forall (fun rt =>
            matched user_id rt
              (trades (backfill_loop raises i user_id fee_rate st rts)) \/
            unconvertible rt) rts.
Proof.
  induction rts as [|rt rts IH]; intros i st Hr; cbn; constructor.
  - destruct (writer_step_settles (raises i) user_id fee_rate st rt (Hr i))
      as [Hm | Hu]; [left | now right].
    destruct (backfill_loop_trades raises user_id fee_rate rts (S i)
                (writer_step (raises i) user_id fee_rate st rt)) as (new & ->).
    now apply matched_app.
  - now apply IH.
Qed.

(** ** The claims on the writer *)

(** C6.  The fee the writer computes for a round trip is
    [quantity * exit_price * fee_rate] when its realized P&L is positive
    and exactly 0 when it is zero or negative; when the round trip is
    inserted this is the [fee_usd] of its row and the amount by which
    [total_fees] grows. *)
Theorem fee_on_profitable_closes_only fee_rate rt :
  ((0 < pnl_usd rt)%Q ->
     fee_amount_of fee_rate rt = (quantity rt * exit_price rt * fee_rate)%Q) /\
  ((pnl_usd rt <= 0)%Q -> fee_amount_of fee_rate rt = 0%Q) /\
  (forall raises user_id st row,
      try_insert raises user_id fee_rate (trades st) rt = Inserted row ->
      fee_usd row = fee_amount_of fee_rate rt /\
      total_fees (writer_step raises user_id fee_rate st rt) =
        (total_fees st + fee_amount_of fee_rate rt)%Q).
Proof.
  unfold fee_amount_of. split; [|split].
  - intros Hp. apply Qlt_bool_iff in Hp. now rewrite Hp.
  - intros Hp. apply Qlt_bool_false in Hp. now rewrite Hp.
  - intros raises user_id st row H. unfold writer_step. rewrite H. cbn.
    apply try_insert_Inserted in H as (ed & xd & _ & _ & _ & _ & _ & ->).
    split; reflexivity.
Qed.

Lemma fee_on_profitable_closes_only_witness :
  let rt := mkRoundTrip "BTC" (Some Long) 100 110 5 50 10
              1700000000000 1700000060000 0 in
  let lost := mkRoundTrip "BTC" (Some Long) 100 90 5 (-50) (-10)
                1700000000000 1700000060000 0 in
  fee_amount_of (1 # 10) rt = (5 * 110 * (1 # 10))%Q /\
  fee_amount_of (1 # 10) lost = 0%Q.
Proof.
  intros rt lost. split.
  - apply (proj1 (fee_on_profitable_closes_only (1 # 10) rt)). reflexivity.
  - apply (proj1 (proj2 (fee_on_profitable_closes_only (1 # 10) lost))).
    discriminate.
Defined.

(** C7.  The writer inserts a round trip only when no row of the table has
    the same user and symbol with [opened_at] and [closed_at] each less
    than 60 seconds from the round trip's: when such a row exists the
    iteration changes nothing (no row, no aggregate) and, the store
    answering, ends in the [continue] of line 164.  A round trip inserted
    by a first run is in the table that run leaves, and a second run
    started from that table, whatever its batch, fee tier and store
    failures, changes nothing when it reaches that round trip.  When the
    store raised on no call of the first run, a second run over any batch
    drawn from the first inserts 0 rows and returns zero aggregates. *)
Theorem writer_idempotent :
  (forall raises user_id fee_rate st rt entry_dt exit_dt row,
      to_datetime (entry_time rt) = Some entry_dt ->
      to_datetime (exit_time rt) = Some exit_dt ->
      In row (trades st) ->
      dedup_match user_id (symbol rt) entry_dt exit_dt row = true ->
      writer_step raises user_id fee_rate st rt = st /\
      (raises Fetchval = false ->
       try_insert raises user_id fee_rate (trades st) rt = Skipped)) /\
  (forall raises1 raises2 user_id rate1 rate2 table pre rt post row batch2,
      let before := backfill_loop raises1 0 user_id rate1 (writer_start table) pre in
      let first := backfill_loop raises1 0 user_id rate1 (writer_start table)
                     (pre ++ rt :: post) in
      let second := backfill_loop raises2 0 user_id rate2
                      (writer_start (trades first)) batch2 in
      try_insert (raises1 (length pre)) user_id rate1 (trades before) rt
        = Inserted row ->
      In row (trades first) /\
      forall raises, writer_step raises user_id rate2 second rt = second) /\
  (forall FEE_TIERS raises1 raises2 user_id tier1 tier2 table batch batch2 first,
      (forall i op, raises1 i op = false) ->
      (forall rt, In rt batch2 -> In rt batch) ->
      backfill_trades FEE_TIERS raises1 table user_id batch tier1 = Some first ->
      backfill_trades FEE_TIERS raises2 (trades first) user_id batch2 tier2
        = Some (writer_start (trades first))).
Proof.
  split; [|split].
  - intros raises user_id fee_rate st rt entry_dt exit_dt row He Hx Hin Hm.
    assert (Hmatched : matched user_id rt (trades st))
      by (exists entry_dt, exit_dt, row; auto).
    split; [now apply writer_step_matched|].
    intros Hr. rewrite try_insert_matched by exact Hmatched. now rewrite Hr.
  - intros raises1 raises2 user_id rate1 rate2 table pre rt post row batch2
      before first second Hins.
    assert (Hstep : trades (writer_step (raises1 (length pre)) user_id rate1 before rt)
                    = trades before ++ [row])
      by (unfold writer_step; now rewrite Hins).
    assert (Hfirst : exists new, trades first = (trades before ++ [row]) ++ new).
    { unfold first. rewrite backfill_loop_app. cbn. fold before.
      rewrite <- Hstep. apply backfill_loop_trades. }
    destruct Hfirst as (new & Hfirst).
    assert (Hrow : In row (trades first)).
    { rewrite Hfirst. apply in_or_app. left. apply in_or_app. right. now left. }
    split; [exact Hrow|]. intros raises.
    apply writer_step_matched.
    destruct (backfill_loop_trades raises2 user_id rate2 batch2 0
                (writer_start (trades first))) as (new2 & Hsecond).
    fold second in Hsecond. rewrite Hsecond. cbn. apply matched_app.
    apply try_insert_Inserted in Hins as (ed & xd & He & Hx & _ & _ & _ & ->).
    exists ed, xd, (ledger_row user_id rt (fee_amount_of rate1 rt) ed xd).
    auto using dedup_match_self.
  - intros FEE_TIERS raises1 raises2 user_id tier1 tier2 table batch batch2 first
      Hr Hsub H1.
    unfold backfill_trades, resolve_fee_rate in *.
    destruct (FEE_TIERS !! "standard") as [std|] eqn:Hstd; [|discriminate].
    cbn in *.
    inversion H1 as [Hfirst]. f_equal. rewrite Hfirst.
    apply backfill_loop_settled. cbn.
    pose proof (backfill_loop_settles raises1 user_id
                  (default std (FEE_TIERS !! tier1)) batch 0 (writer_start table) Hr)
      as Hall.
    rewrite Hfirst in Hall. rewrite Forall_forall in Hall.
    apply Forall_forall. intros rt Hin. apply Hall.
    apply list_elem_of_In. apply Hsub. now apply list_elem_of_In.
Qed.

Lemma writer_idempotent_witness :
  let tiers : gmap string Q := {["standard" := (1 # 10)%Q]} in
  let batch := [mkRoundTrip "BTC" (Some Long) 100 110 5 50 10
                  1700000000000 1700000060000 0;
                mkRoundTrip "ETH" (Some Short) 100 90 3 30 11
                  1700000100000 1700000200000 0] in
  let first := backfill_loop (fun _ _ => false) 0 7 (1 # 10) (writer_start []) batch in
  inserted first = 2%nat /\
  backfill_trades tiers (fun _ _ => false) (trades first) 7 (rev batch) "vip"
    = Some (writer_start (trades first)).
Proof.
  intros tiers batch first. split; [reflexivity|].
  apply (proj2 (proj2 writer_idempotent) tiers (fun _ _ => false) (fun _ _ => false)
           7 "standard" "vip" [] batch (rev batch) first).
  - reflexivity.
  - intros rt H. apply in_rev in H. exact H.
  - vm_compute. reflexivity.
Defined.

(** C9.  An iteration that raises (a timestamp without [datetime], or the
    store raising on the existence check or on the INSERT) leaves the
    table and the three aggregates as they were, and the loop goes on with
    the next round trip: the batch [l1 ++ rt :: l2] ends as [l2] does from
    the state [l1] left.  [backfill_trades] returns whenever the
    ['standard'] tier is configured; the table it leaves is the table it
    found followed by the rows it inserted, [inserted] is their number,
    [total_pnl] the sum of their [profit_usd] and [total_fees] the sum of
    their [fee_usd]. *)
Theorem bad_row_is_skipped_and_aggregates_cover_inserted_rows :
  (forall raises i user_id fee_rate st l1 rt l2,
      let before := backfill_loop raises i user_id fee_rate st l1 in
      try_insert (raises (i + length l1)%nat) user_id fee_rate (trades before) rt
        = Raised ->
      backfill_loop raises i user_id fee_rate st (l1 ++ rt :: l2) =
      backfill_loop raises (S (i + length l1)) user_id fee_rate before l2) /\
  (forall FEE_TIERS raises table user_id batch fee_tier,
      is_Some (FEE_TIERS !! "standard") ->
      exists result new,
        backfill_trades FEE_TIERS raises table user_id batch fee_tier = Some result /\
        trades result = table ++ new /\
        inserted result = length new /\
        total_pnl result = sum_profit new /\
        total_fees result = sum_fees new).
Proof.
  split.
  - intros raises i user_id fee_rate st l1 rt l2 before H.
    rewrite backfill_loop_app. cbn. fold before.
    now rewrite (writer_step_Raised _ _ _ _ _ H).
  - intros FEE_TIERS raises table user_id batch fee_tier [std Hstd].
    unfold backfill_trades, resolve_fee_rate. rewrite Hstd. cbn.
    destruct (backfill_loop_aggregates raises user_id
                (default std (FEE_TIERS !! fee_tier)) batch 0 (writer_start table))
      as (new & Ht & Hi & Hp & Hf).
    eexists. exists new. split; [reflexivity|]. auto.
Qed.

Lemma bad_row_is_skipped_and_aggregates_cover_inserted_rows_witness :
  let raises := fun (i : nat) (op : DbOp) =>
                  match i, op with 1%nat, Execute => true | _, _ => false end in
  let rt1 := mkRoundTrip "BTC" (Some Long) 100 110 5 50 10
               1700000000000 1700000060000 0 in
  let bad := mkRoundTrip "SOL" (Some Long) 10 12 1 2 20
               1700000070000 1700000080000 0 in
  let rt2 := mkRoundTrip "ETH" (Some Short) 100 90 3 30 11
               1700000100000 1700000200000 0 in
  let before := backfill_loop raises 0 7 (1 # 10) (writer_start []) [rt1] in
  backfill_loop raises 0 7 (1 # 10) (writer_start []) ([rt1] ++ bad :: [rt2]) =
    backfill_loop raises 2 7 (1 # 10) before [rt2] /\
  inserted (backfill_loop raises 2 7 (1 # 10) before [rt2]) = 2%nat.
Proof.
  intros raises rt1 bad rt2 before. split; [|reflexivity].
  apply (proj1 bad_row_is_skipped_and_aggregates_cover_inserted_rows
           raises 0%nat 7 (1 # 10)%Q (writer_start []) [rt1] bad [rt2]).
  reflexivity.
Defined.

(** * Further properties of the matcher *)

(** ** Sorting and filtering *)

Lemma insert_by_time_first f l :
  Forall (time_le f) l -> insert_by_time f l = f :: l.
Proof.
  intros H. destruct l as [|g l]; cbn; [reflexivity|].
  inversion H as [|? ? Hfg _]; subst. unfold time_le in Hfg.
  apply Z.leb_le in Hfg. now rewrite Hfg.
Qed.

Lemma filter_insert_by_time_drop (p : Fill -> bool) f l :
  p f = false ->
  List.filter p (insert_by_time f l) = List.filter p l.
Proof.
  intros Hp. induction l as [|g l IH]; cbn; [now rewrite Hp|].
  destruct (fill_time f <=? fill_time g); cbn; [now rewrite Hp|].
  now rewrite IH.
Qed.

Lemma filter_insert_by_time_keep (p : Fill -> bool) f l :
  p f = true -> StronglySorted time_le l ->
  List.filter p (insert_by_time f l) = insert_by_time f (List.filter p l).
Proof.
  intros Hp Hs. induction Hs as [|g l Hs IH Hall]; cbn; [now rewrite Hp|].
  destruct (fill_time f <=? fill_time g) eqn:E; cbn; rewrite ?Hp.
  - apply Z.leb_le in E. symmetry. apply insert_by_time_first.
    assert (Hf : Forall (time_le f) (g :: l)).
    { constructor; [exact E|]. eapply Forall_impl; [exact Hall|].
      unfold time_le. intros; lia. }
    apply Forall_forall. intros x Hx. rewrite Forall_forall in Hf. apply Hf.
    apply list_elem_of_In in Hx.
    change (In x (List.filter p (g :: l))) in Hx.
    apply filter_In in Hx as [Hx _]. now apply list_elem_of_In.
  - destruct (p g); cbn; rewrite ?E, IH; reflexivity.
Qed.

(** The stable sort commutes with every filter. *)
Lemma sorted_by_time_filter (p : Fill -> bool) l :
  sorted_by_time (List.filter p l) = List.filter p (sorted_by_time l).
Proof.
  induction l as [|f l IH]; cbn; [reflexivity|].
  destruct (p f) eqn:Hp; cbn.
  - rewrite IH. symmetry.
    apply filter_insert_by_time_keep; [exact Hp | apply sorted_by_time_sorted].
  - rewrite IH. symmetry. now apply filter_insert_by_time_drop.
Qed.

Lemma filter_comm {A} (p q : A -> bool) (l : list A) :
  List.filter p (List.filter q l) = List.filter q (List.filter p l).
Proof.
  induction l as [|x l IH]; cbn; [reflexivity|].
  destruct (p x) eqn:Hp, (q x) eqn:Hq; cbn; rewrite ?Hp, ?Hq, IH; reflexivity.
Qed.

Lemma recent_fills_filter (p : Fill -> bool) since l :
  recent_fills since (List.filter p l) = List.filter p (recent_fills since l).
Proof. unfold recent_fills. apply filter_comm. Qed.

(** ** Fills that do not count *)

Lemma match_fills_kept l : forall st,
  match_fills st (List.filter kept l) = match_fills st l.
Proof.
  induction l as [|f l IH]; intros st; cbn; [reflexivity|].
  unfold kept at 1. destruct (degenerate (fill_coin f) (fill_sz f)) eqn:Hd; cbn.
  - rewrite (process_fill_degenerate _ _ Hd). cbn. apply IH.
  - destruct (process_fill st f); cbn; [apply IH | reflexivity].
Qed.

(** X1.  Fills with an empty coin or a zero size can be removed from the
    fetched list without changing anything: the loop ends in the same
    state (same positions, same round trips) or raises alike. *)
Theorem degenerate_fills_change_nothing since fills :
  run_matcher since (List.filter kept fills) = run_matcher since fills /\
  get_hl_closed_trades (Some (List.filter kept fills)) since =
    get_hl_closed_trades (Some fills) since.
Proof.
  assert (H : run_matcher since (List.filter kept fills) = run_matcher since fills).
  { unfold run_matcher.
    now rewrite recent_fills_filter, sorted_by_time_filter, match_fills_kept. }
  split; [exact H|]. unfold get_hl_closed_trades. now rewrite H.
Qed.

(** X2.  A fill older than the lower bound of the window, wherever it
    stands in the fetched list, changes neither the positions nor the
    round trips. *)
Theorem fill_before_window_changes_nothing since l1 old l2 :
  fill_time old < since ->
  run_matcher since (l1 ++ old :: l2) = run_matcher since (l1 ++ l2) /\
  get_hl_closed_trades (Some (l1 ++ old :: l2)) since =
    get_hl_closed_trades (Some (l1 ++ l2)) since.
Proof.
  intros Hold.
  assert (H : recent_fills since (l1 ++ old :: l2) = recent_fills since (l1 ++ l2)).
  { unfold recent_fills. rewrite !List.filter_app. cbn.
    apply Z.leb_gt in Hold. now rewrite Hold. }
  unfold get_hl_closed_trades, run_matcher. now rewrite H.
Qed.

Lemma fill_before_window_changes_nothing_witness :
  get_hl_closed_trades
    (Some ([mkFill "BTC" "B" 5 100 1000 0] ++ mkFill "BTC" "A" 5 90 10 0
           :: [mkFill "BTC" "A" 5 110 2000 0])) 500 =
  get_hl_closed_trades
    (Some ([mkFill "BTC" "B" 5 100 1000 0] ++ [mkFill "BTC" "A" 5 110 2000 0])) 500.
Proof.
  refine (proj2 (fill_before_window_changes_nothing 500
                   [mkFill "BTC" "B" 5 100 1000 0] (mkFill "BTC" "A" 5 90 10 0)
                   [mkFill "BTC" "A" 5 110 2000 0] _)).
  reflexivity.
Defined.

(** ** Coins do not interact *)

Lemma emitted_symbol st fill rt :
  emitted_by st fill rt -> symbol rt = fill_coin fill /\ exit_time rt = fill_time fill.
Proof.
  intros (_ & _ & pos' & Hc).
  apply close_fill_Some in Hc as (pct & d & _ & _ & -> & _). now cbn.
Qed.

Lemma position_of_eq st1 st2 c :
  positions st1 !! c = positions st2 !! c -> position_of st1 c = position_of st2 c.
Proof. unfold position_of. now intros ->. Qed.

(** An iteration on coin [c] seen from a state that agrees on [c]. *)
Lemma process_fill_on_coin c st stc f st' :
  fill_coin f = c ->
  positions stc !! c = positions st !! c ->
  round_trips stc = List.filter (of_symbol c) (round_trips st) ->
  process_fill st f = Some st' ->
  exists stc',
    process_fill stc f = Some stc' /\
    positions stc' !! c = positions st' !! c /\
    round_trips stc' = List.filter (of_symbol c) (round_trips st').
Proof.
  intros Hc Hpos Hrt Hp. subst c.
  pose proof (position_of_eq _ _ _ Hpos) as Hpo.
  destruct (process_fill_inv _ _ _ Hp) as [Hd -> | Hd Ho -> | rt pos' Hd Ho Hcl ->].
  - exists stc. rewrite process_fill_degenerate by exact Hd. auto.
  - eexists. rewrite process_fill_opening by (try exact Hd; now rewrite Hpo).
    split; [reflexivity|]. cbn. rewrite !lookup_insert_eq, Hpo. auto.
  - eexists. rewrite process_fill_closing by (try exact Hd; now rewrite Hpo).
    rewrite Hpo, Hcl. split; [reflexivity|]. cbn. rewrite !lookup_insert_eq.
    split; [reflexivity|]. rewrite List.filter_app, Hrt. cbn.
    apply close_fill_Some in Hcl as (pct & d & _ & _ & -> & _).
    unfold of_symbol. cbn. now rewrite String.eqb_refl.
Qed.

(** An iteration on another coin leaves [c] alone. *)
Lemma process_fill_off_coin c st f st' :
  fill_coin f <> c ->
  process_fill st f = Some st' ->
  positions st' !! c = positions st !! c /\
  List.filter (of_symbol c) (round_trips st') =
    List.filter (of_symbol c) (round_trips st).
Proof.
  intros Hne Hp.
  destruct (process_fill_inv _ _ _ Hp) as [_ -> | _ _ -> | rt pos' _ _ Hcl ->];
    cbn; [auto | now rewrite lookup_insert_ne |].
  rewrite lookup_insert_ne by exact Hne. split; [reflexivity|].
  rewrite List.filter_app. cbn.
  apply close_fill_Some in Hcl as (pct & d & _ & _ & -> & _).
  unfold of_symbol. cbn. apply String.eqb_neq in Hne. rewrite Hne.
  apply app_nil_r.
Qed.

Lemma match_fills_on_coin c l : forall st stc st',
  positions stc !! c = positions st !! c ->
  round_trips stc = List.filter (of_symbol c) (round_trips st) ->
  match_fills st l = Some st' ->
  exists stc',
    match_fills stc (List.filter (on_coin c) l) = Some stc' /\
    positions stc' !! c = positions st' !! c /\
    round_trips stc' = List.filter (of_symbol c) (round_trips st').
Proof.
  induction l as [|f l IH]; intros st stc st' Hpos Hrt Hm; cbn in Hm.
  - inversion Hm; subst. exists stc. auto.
  - destruct (process_fill st f) as [st1|] eqn:Hp; [|discriminate]. cbn in Hm.
    cbn. unfold on_coin at 1. destruct (fill_coin f =? c)%string eqn:E.
    + apply String.eqb_eq in E.
      destruct (process_fill_on_coin c st stc f st1 E Hpos Hrt Hp)
        as (stc1 & Hpc & Hpos1 & Hrt1).
      cbn. rewrite Hpc. cbn. eapply IH; eauto.
    + apply String.eqb_neq in E.
      destruct (process_fill_off_coin c st f st1 E Hp) as [Hpos1 Hrt1].
      eapply IH; [| |exact Hm]; congruence.
Qed.

(** X3.  Coins are matched independently.  When the loop ends without
    raising, running it on the fills of one coin alone also ends without
    raising, leaves that coin in the same position and emits exactly the
    round trips of that coin, in the same order. *)
Theorem coins_are_matched_independently c since fills st :
  run_matcher since fills = Some st ->
  exists stc,
    run_matcher since (List.filter (on_coin c) fills) = Some stc /\
    positions stc !! c = positions st !! c /\
    round_trips stc = List.filter (of_symbol c) (round_trips st) /\
    get_hl_closed_trades (Some (List.filter (on_coin c) fills)) since =
      List.filter (of_symbol c) (get_hl_closed_trades (Some fills) since).
Proof.
  intros H. unfold get_hl_closed_trades. rewrite H.
  unfold run_matcher in *.
  rewrite recent_fills_filter, sorted_by_time_filter.
  destruct (match_fills_on_coin c _ initial_state initial_state st
              eq_refl eq_refl H) as (stc & Hm & Hpos & Hrt).
  exists stc. rewrite Hm. auto.
Qed.

Lemma coins_are_matched_independently_witness :
  get_hl_closed_trades
    (Some (List.filter (on_coin "ETH")
             [mkFill "BTC" "B" 5 100 1000 0; mkFill "ETH" "A" 3 100 1500 0;
              mkFill "BTC" "A" 5 110 2000 0; mkFill "ETH" "B" 3 90 2500 0])) 0 =
  List.filter (of_symbol "ETH")
    (get_hl_closed_trades
       (Some [mkFill "BTC" "B" 5 100 1000 0; mkFill "ETH" "A" 3 100 1500 0;
              mkFill "BTC" "A" 5 110 2000 0; mkFill "ETH" "B" 3 90 2500 0]) 0).
Proof.
  pose (fills := [mkFill "BTC" "B" 5 100 1000 0; mkFill "ETH" "A" 3 100 1500 0;
                  mkFill "BTC" "A" 5 110 2000 0; mkFill "ETH" "B" 3 90 2500 0]).
  destruct (coins_are_matched_independently "ETH" 0 fills
              (default initial_state (run_matcher 0 fills)))
    as (stc & _ & _ & _ & H).
  - vm_compute. reflexivity.
  - exact H.
Defined.

(** ** The order of the fetched list *)

Lemma NoDup_map_inj {A B} (f : A -> B) (l : list A) x y :
  NoDup (map f l) -> In x l -> In y l -> f x = f y -> x = y.
Proof.
  induction l as [|a l IH]; cbn; intros Hnd Hx Hy Hf; [destruct Hx|].
  inversion Hnd as [|? ? Hnotin Hnd']; subst.
  destruct Hx as [<- | Hx], Hy as [<- | Hy]; auto.
  - exfalso. apply Hnotin. rewrite Hf. apply list_elem_of_In.
    now apply in_map.
  - exfalso. apply Hnotin. rewrite <- Hf. apply list_elem_of_In.
    now apply in_map.
Qed.

(** Two sorted arrangements of fills with distinct times are the same. *)
Lemma sorted_unique l1 : forall l2,
  StronglySorted time_le l1 -> StronglySorted time_le l2 ->
  Permutation l1 l2 -> NoDup (map fill_time l1) -> l1 = l2.
Proof.
  induction l1 as [|a l1 IH]; intros l2 Hs1 Hs2 Hperm Hnd.
  - apply Permutation_nil in Hperm. now subst.
  - destruct l2 as [|b l2];
      [apply Permutation_sym, Permutation_nil in Hperm; discriminate|].
    assert (Hab : a = b).
    { assert (Ha2 : In a (b :: l2))
        by (eapply Permutation_in; [exact Hperm | now left]).
      assert (Hb1 : In b (a :: l1))
        by (eapply Permutation_in; [symmetry; exact Hperm | now left]).
      apply (NoDup_map_inj fill_time (a :: l1)); auto; [now left|].
      inversion Hs1 as [|? ? _ Hall1]; subst.
      inversion Hs2 as [|? ? _ Hall2]; subst.
      rewrite Forall_forall in Hall1, Hall2.
      assert (fill_time a <= fill_time b).
      { destruct Hb1 as [-> | Hb1]; [lia|].
        apply Hall1. now apply list_elem_of_In. }
      assert (fill_time b <= fill_time a).
      { destruct Ha2 as [-> | Ha2]; [lia|].
        apply Hall2. now apply list_elem_of_In. }
      lia. }
    subst b. f_equal.
    inversion Hs1; inversion Hs2; inversion Hnd; subst.
    apply IH; auto. now apply Permutation_cons_inv in Hperm.
Qed.

Lemma recent_fills_perm since l1 l2 :
  Permutation l1 l2 -> Permutation (recent_fills since l1) (recent_fills since l2).
Proof.
  unfold recent_fills. induction 1; cbn.
  - constructor.
  - destruct (since <=? fill_time x); [now constructor | assumption].
  - destruct (since <=? fill_time x), (since <=? fill_time y);
      try reflexivity. apply perm_swap.
  - etransitivity; eassumption.
Qed.

Lemma recent_fills_NoDup since l :
  NoDup (map fill_time l) -> NoDup (map fill_time (recent_fills since l)).
Proof.
  unfold recent_fills. induction l as [|f l IH]; cbn; intros H; [constructor|].
  inversion H as [|? ? Hnotin Hnd]; subst.
  destruct (since <=? fill_time f); cbn; [|now apply IH].
  constructor; [|now apply IH].
  intros Hin. apply Hnotin. apply list_elem_of_In in Hin.
  apply in_map_iff in Hin as (g & Hg & Hin). apply filter_In in Hin as [Hin _].
  apply list_elem_of_In. rewrite <- Hg. now apply in_map.
Qed.

(** X4.  When no two fetched fills carry the same time, the order in which
    the venue returns them does not matter: any rearrangement of the list
    gives the same positions and the same round trips. *)
Theorem fetched_order_is_irrelevant since fills fills' :
  NoDup (map fill_time fills) ->
  Permutation fills fills' ->
  run_matcher since fills = run_matcher since fills' /\
  get_hl_closed_trades (Some fills) since =
    get_hl_closed_trades (Some fills') since.
Proof.
  intros Hnd Hperm.
  assert (Hs : sorted_by_time (recent_fills since fills) =
               sorted_by_time (recent_fills since fills')).
  { apply sorted_unique; try apply sorted_by_time_sorted.
    - rewrite <- !sorted_by_time_perm. now apply recent_fills_perm.
    - assert (Hp : Permutation (map fill_time (recent_fills since fills))
                     (map fill_time (sorted_by_time (recent_fills since fills))))
        by apply Permutation_map, sorted_by_time_perm.
      rewrite <- Hp. now apply recent_fills_NoDup. }
  unfold get_hl_closed_trades, run_matcher. now rewrite Hs.
Qed.

Lemma fetched_order_is_irrelevant_witness :
  get_hl_closed_trades
    (Some [mkFill "BTC" "B" 5 100 1000 0; mkFill "BTC" "A" 5 110 2000 0]) 0 =
  get_hl_closed_trades
    (Some [mkFill "BTC" "A" 5 110 2000 0; mkFill "BTC" "B" 5 100 1000 0]) 0.
Proof.
  refine (proj2 (fetched_order_is_irrelevant 0
                   [mkFill "BTC" "B" 5 100 1000 0; mkFill "BTC" "A" 5 110 2000 0]
                   [mkFill "BTC" "A" 5 110 2000 0; mkFill "BTC" "B" 5 100 1000 0]
                   _ _)).
  - apply (bool_decide_unpack _). vm_compute. exact I.
  - apply perm_swap.
Defined.

(** ** Times of the round trips *)

(** Every entry of every position carries the time of a processed fill. *)
Lemma match_fills_entry_times (P : Z -> Prop) l : forall st st',
  Forall (fun f => P (fill_time f)) l ->
  (forall c p, positions st !! c = Some p ->
     Forall (fun e => P (e_timestamp e)) (entries p)) ->
  match_fills st l = Some st' ->
  forall c p, positions st' !! c = Some p ->
    Forall (fun e => P (e_timestamp e)) (entries p).
Proof.
  induction l as [|f l IH]; intros st st' Hall Hinv Hm; cbn in Hm.
  - now inversion Hm; subst.
  - destruct (process_fill st f) as [st1|] eqn:Hp; [|discriminate]. cbn in Hm.
    inversion Hall as [|? ? Hf Hl]; subst.
    eapply IH; [exact Hl| |exact Hm].
    assert (Hpo : Forall (fun e => P (e_timestamp e))
                    (entries (position_of st (fill_coin f)))).
    { unfold position_of. destruct (positions st !! fill_coin f) eqn:E; cbn;
        [exact (Hinv _ _ E) | constructor]. }
    destruct (process_fill_inv _ _ _ Hp) as [_ -> | _ _ -> | rt pos' _ _ Hc ->];
      [exact Hinv | |]; intros c p E; cbn in E;
      (destruct (decide (fill_coin f = c)) as [<-|Hne];
       [rewrite lookup_insert_eq in E; inversion E; subst; clear E
       |rewrite lookup_insert_ne in E by exact Hne; exact (Hinv _ _ E)]).
    + cbn. apply Forall_app. split; [exact Hpo|]. now repeat constructor.
    + apply close_fill_Some in Hc as (pct & d & _ & _ & _ & ->).
      unfold after_close. destruct (Qle_bool _ 0); cbn; [constructor | exact Hpo].
Qed.

Lemma returned_times_ordered fetched since rt :
  In rt (get_hl_closed_trades fetched since) ->
  since <= entry_time rt /\ entry_time rt <= exit_time rt.
Proof.
  intros Hin.
  apply returned_round_trip_emitted in Hin
    as (fills & pre & fill & post & st & _ & Hsorted & Hpre & He).
  assert (Hrecent : Forall (fun f => since <= fill_time f) (pre ++ fill :: post)).
  { rewrite <- Hsorted. apply sorted_by_time_Forall.
    unfold recent_fills. apply Forall_forall. intros f Hf.
    apply list_elem_of_In, filter_In in Hf as [_ Hf]. now apply Z.leb_le. }
  apply Forall_app in Hrecent as [Hrpre Hrfill].
  inversion Hrfill as [|? ? Hfill _]; subst.
  assert (Hinv : matcher_inv st (fill :: post)).
  { eapply match_fills_inv; [| apply matcher_inv_initial | exact Hpre].
    rewrite <- Hsorted. apply sorted_by_time_sorted. }
  destruct (position_of_ok st _ (fill_coin fill) Hinv) as (_ & _ & Hbefore).
  apply entries_before_head in Hbefore.
  assert (Hsince : Forall (fun e => since <= e_timestamp e)
                     (entries (position_of st (fill_coin fill)))).
  { unfold position_of. destruct (positions st !! fill_coin fill) eqn:E; cbn;
      [|constructor].
    eapply (match_fills_entry_times (fun t => since <= t) pre initial_state st);
      eauto.
    intros c p0 E0. cbn in E0. rewrite lookup_empty in E0. discriminate. }
  destruct He as (_ & _ & pos' & Hc).
  apply close_fill_Some in Hc as (pct & d & _ & _ & -> & _). cbn.
  unfold first_entry_time.
  destruct (entries (position_of st (fill_coin fill))) as [|e es]; [lia|].
  inversion Hbefore; inversion Hsince; subst. lia.
Qed.

(** X5.  Every round trip returned has its entry time inside the window
    and not after its exit time. *)
Theorem round_trip_times_are_ordered fetched since rt :
  In rt (get_hl_closed_trades fetched since) ->
  since <= entry_time rt /\ entry_time rt <= exit_time rt.
Proof. apply returned_times_ordered. Qed.

Lemma round_trip_times_are_ordered_witness :
  exists rt,
    In rt (get_hl_closed_trades
             (Some [mkFill "BTC" "A" 5 110 2000 0; mkFill "BTC" "B" 5 100 1000 0]) 500) /\
    500 <= entry_time rt /\ entry_time rt <= exit_time rt.
Proof.
  eexists. split; [vm_compute; left; reflexivity|].
  apply (round_trip_times_are_ordered
           (Some [mkFill "BTC" "A" 5 110 2000 0; mkFill "BTC" "B" 5 100 1000 0])).
  vm_compute. left. reflexivity.
Defined.

Lemma StronglySorted_snoc {A} (R : A -> A -> Prop) l y :
  StronglySorted R l -> Forall (fun x => R x y) l -> StronglySorted R (l ++ [y]).
Proof.
  induction 1 as [|x l Hs IH Hall]; cbn; intros Hy.
  - repeat constructor.
  - inversion Hy; subst. constructor; [now apply IH|].
    apply Forall_app. split; [exact Hall | now repeat constructor].
Qed.

Lemma match_fills_exit_sorted l : forall st st',
  StronglySorted time_le l ->
  StronglySorted exit_le (round_trips st) ->
  Forall (fun rt => Forall (fun f => exit_time rt <= fill_time f) l)
    (round_trips st) ->
  match_fills st l = Some st' ->
  StronglySorted exit_le (round_trips st').
Proof.
  induction l as [|f l IH]; intros st st' Hs Hrt Hbefore Hm; cbn in Hm.
  - now inversion Hm; subst.
  - destruct (process_fill st f) as [st1|] eqn:Hp; [|discriminate]. cbn in Hm.
    inversion Hs as [|? ? Hsl Hfl]; subst.
    assert (Htail : Forall (fun rt => Forall (fun g => exit_time rt <= fill_time g) l)
                      (round_trips st)).
    { eapply Forall_impl; [exact Hbefore|]. intros rt H. now inversion H. }
    assert (Hhead : Forall (fun rt => exit_time rt <= fill_time f) (round_trips st)).
    { eapply Forall_impl; [exact Hbefore|]. intros rt H. now inversion H. }
    destruct (process_fill_inv _ _ _ Hp) as [_ -> | _ _ -> | rt pos' Hd Ho Hc ->].
    { exact (IH _ _ Hsl Hrt Htail Hm). }
    { refine (IH _ _ Hsl _ _ Hm); cbn; assumption. }
    eapply IH; [exact Hsl | | | exact Hm]; cbn.
    + assert (Hx : exit_time rt = fill_time f).
      { apply close_fill_Some in Hc as (pct & d & _ & _ & -> & _). reflexivity. }
      apply StronglySorted_snoc; [exact Hrt|].
      eapply Forall_impl; [exact Hhead|]. unfold exit_le. intros; lia.
    + apply Forall_app. split; [exact Htail|]. repeat constructor.
      apply close_fill_Some in Hc as (pct & d & _ & _ & -> & _). cbn.
      exact Hfl.
Qed.

(** X6.  The round trips are returned in the order of their exit times. *)
Theorem round_trips_are_in_exit_order fetched since :
  StronglySorted exit_le (get_hl_closed_trades fetched since).
Proof.
  unfold get_hl_closed_trades, run_matcher.
  destruct fetched as [fills|]; [|constructor].
  destruct (match_fills initial_state _) as [st|] eqn:Hm; [|constructor].
  eapply match_fills_exit_sorted; [apply sorted_by_time_sorted | | | exact Hm];
    constructor.
Qed.

(** ** Streams without negative sizes *)

Lemma kept_positive_size f :
  degenerate (fill_coin f) (fill_sz f) = false -> (0 <= fill_sz f)%Q ->
  (0 < fill_sz f)%Q.
Proof.
  unfold degenerate. intros Hd Hge.
  apply orb_false_iff in Hd as [_ Hd]. apply Qeq_bool_false in Hd.
  destruct (Qlt_le_dec 0 (fill_sz f)) as [H | H]; [exact H|].
  exfalso. apply Hd. lra.
Qed.

Lemma sound_position_of P st c :
  (forall c p, positions st !! c = Some p -> sound_position P p) ->
  sound_position P (position_of st c).
Proof.
  intros H. unfold position_of.
  destruct (positions st !! c) as [p|] eqn:E; cbn; [exact (H _ _ E) | now left].
Qed.

Lemma sound_open_fill P pos side amount price timestamp :
  kept_by_averaging P -> (0 < amount)%Q -> P price ->
  sound_position P pos ->
  sound_position P (open_fill pos side amount price timestamp).
Proof.
  intros [Hflat Havg] Ha Hp Hs. right.
  destruct Hs as [-> | (Ht & Hside & _ & Hq)]; cbn.
  - replace (Qlt_bool 0 (0 + amount)) with true
      by (symmetry; apply Qlt_bool_iff; lra).
    repeat split; [lra | eauto | discriminate | now apply Hflat].
  - replace (Qlt_bool 0 (total_amount pos + amount)) with true
      by (symmetry; apply Qlt_bool_iff; lra).
    replace (Qeq_bool (total_amount pos) 0) with false
      by (symmetry; apply Qeq_bool_false; lra).
    repeat split; [lra | exact Hside | | now apply Havg].
    destruct (entries pos); discriminate.
Qed.

Lemma sound_after_close P pos q :
  ~ (total_amount pos == 0)%Q ->
  sound_position P pos -> sound_position P (after_close pos q).
Proof.
  intros Hnz Hs. unfold after_close.
  destruct (Qle_bool (total_amount pos - q) 0) eqn:E; [now left|].
  destruct Hs as [-> | (Ht & Hside & Hent & Hq)];
    [exfalso; apply Hnz; reflexivity|].
  right. cbn. repeat split; auto.
  apply Qlt_bool_iff. unfold Qlt_bool. now rewrite E.
Qed.

Lemma process_fill_sound P st f st' :
  kept_by_averaging P -> (0 <= fill_sz f)%Q -> P (fill_px f) ->
  (forall c p, positions st !! c = Some p -> sound_position P p) ->
  process_fill st f = Some st' ->
  forall c p, positions st' !! c = Some p -> sound_position P p.
Proof.
  intros HP Hsz Hpx Hinv Hp.
  pose proof (sound_position_of P st (fill_coin f) Hinv) as Hpos.
  destruct (process_fill_inv _ _ _ Hp) as [_ -> | Hd _ -> | rt pos' _ Ho Hc ->];
    [exact Hinv | |]; intros c p E; cbn in E;
    (destruct (decide (fill_coin f = c)) as [<-|Hne];
     [rewrite lookup_insert_eq in E; inversion E; subst; clear E
     |rewrite lookup_insert_ne in E by exact Hne; exact (Hinv _ _ E)]).
  - apply sound_open_fill; auto using kept_positive_size.
  - apply close_fill_Some in Hc as (pct & d & _ & _ & _ & ->).
    apply sound_after_close; eauto using is_opening_false_open.
Qed.

Lemma match_fills_sound P l : forall st st',
  kept_by_averaging P ->
  Forall (fun f => (0 <= fill_sz f)%Q /\ P (fill_px f)) l ->
  (forall c p, positions st !! c = Some p -> sound_position P p) ->
  match_fills st l = Some st' ->
  forall c p, positions st' !! c = Some p -> sound_position P p.
Proof.
  induction l as [|f l IH]; intros st st' HP Hall Hinv Hm; cbn in Hm.
  - now inversion Hm; subst.
  - destruct (process_fill st f) as [st1|] eqn:Hp; [|discriminate]. cbn in Hm.
    inversion Hall as [|? ? [Hsz Hpx] Hl]; subst.
    eapply IH; [exact HP | exact Hl | | exact Hm].
    eapply process_fill_sound; eauto.
Qed.

Lemma initial_state_sound P c p :
  positions initial_state !! c = Some p -> sound_position P p.
Proof. cbn. rewrite lookup_empty. discriminate. Qed.

Lemma sorted_recent_Forall (P : Fill -> Prop) since fills :
  Forall P fills -> Forall P (sorted_by_time (recent_fills since fills)).
Proof. intros H. now apply sorted_by_time_Forall, recent_fills_Forall. Qed.

Lemma kept_by_averaging_True : kept_by_averaging (fun _ => True).
Proof. split; auto. Qed.

(** The invariant at the point where a fill of the sorted list is reached. *)
Lemma sound_when_reached P since fills pre fill post st :
  kept_by_averaging P ->
  Forall (fun f => (0 <= fill_sz f)%Q /\ P (fill_px f)) fills ->
  sorted_by_time (recent_fills since fills) = pre ++ fill :: post ->
  match_fills initial_state pre = Some st ->
  sound_position P (position_of st (fill_coin fill)) /\
  (0 <= fill_sz fill)%Q /\ P (fill_px fill).
Proof.
  intros HP Hall Hsorted Hpre.
  pose proof (sorted_recent_Forall _ since fills Hall) as Hs.
  rewrite Hsorted in Hs. apply Forall_app in Hs as [Hp Hf].
  inversion Hf as [|? ? [Hsz Hpx] _]; subst.
  split; [|now split]. apply sound_position_of.
  exact (match_fills_sound P pre initial_state st HP Hp
           (initial_state_sound P) Hpre).
Qed.

(** X7.  When no fetched fill has a negative size, every position the loop
    leaves is either the flat one (no entries, no side, zero amount and
    average) or has a positive [total_amount], a side and at least one
    entry. *)
Theorem positions_are_open_or_flat since fills st :
  Forall (fun f => (0 <= fill_sz f)%Q) fills ->
  run_matcher since fills = Some st ->
  forall c p, positions st !! c = Some p -> open_or_flat p.
Proof.
  intros Hall Hm c p E.
  assert (Hs : sound_position (fun _ => True) p).
  { refine (match_fills_sound (fun _ => True) _ initial_state st
              kept_by_averaging_True _ (initial_state_sound _) Hm c p E).
    apply sorted_recent_Forall. eapply Forall_impl; [exact Hall|]. auto. }
  destruct Hs as [-> | (Ht & Hside & Hent & _)]; [now left | right; auto].
Qed.

Lemma positions_are_open_or_flat_witness :
  exists st p,
    run_matcher 0 [mkFill "BTC" "B" 5 100 1000 0; mkFill "BTC" "A" 2 110 2000 0]
      = Some st /\
    positions st !! "BTC" = Some p /\ open_or_flat p.
Proof.
  pose (fills := [mkFill "BTC" "B" 5 100 1000 0; mkFill "BTC" "A" 2 110 2000 0]).
  pose (st := default initial_state (run_matcher 0 fills)).
  pose (p := position_of st "BTC").
  exists st, p.
  assert (Hm : run_matcher 0 fills = Some st) by (vm_compute; reflexivity).
  assert (Hp : positions st !! "BTC" = Some p) by (vm_compute; reflexivity).
  split; [exact Hm|]. split; [exact Hp|].
  refine (positions_are_open_or_flat 0 fills st _ Hm "BTC" p Hp).
  repeat constructor; discriminate.
Defined.

(** X8.  Every round trip returned comes from a fetched fill of the
    window that passed the filter of line 79: it carries that fill's coin,
    time and price, the absolute value of its fee (so a fee that is never
    negative), and a quantity of at most its size. *)
Theorem round_trip_comes_from_a_fill fills since rt :
  In rt (get_hl_closed_trades (Some fills) since) ->
  exists fill,
    In fill fills /\ since <= fill_time fill /\ kept fill = true /\
    symbol rt = fill_coin fill /\ exit_time rt = fill_time fill /\
    exit_price rt = fill_px fill /\
    rt_fee rt = Qabs (fill_fee fill) /\ (0 <= rt_fee rt)%Q /\
    (quantity rt <= fill_sz fill)%Q.
Proof.
  intros Hin.
  apply returned_round_trip_emitted in Hin
    as (fills0 & pre & fill & post & st & Hf & Hsorted & _ & (Hd & _ & pos' & Hc)).
  inversion Hf; subst fills0. exists fill.
  assert (Hfill : In fill (recent_fills since fills)).
  { eapply Permutation_in; [symmetry; apply sorted_by_time_perm|].
    rewrite Hsorted. apply in_or_app. right. now left. }
  apply filter_In in Hfill as [Hfill Ht]. apply Z.leb_le in Ht.
  apply close_fill_Some in Hc as (pct & d & _ & _ & -> & _). cbn.
  unfold kept. rewrite Hd.
  repeat split; auto using Qabs_nonneg, py_min_le_l.
Qed.

Lemma round_trip_comes_from_a_fill_witness :
  exists rt fill,
    In fill [mkFill "BTC" "B" 5 100 1000 0; mkFill "BTC" "A" 8 110 2000 (-2)] /\
    exit_time rt = fill_time fill /\ rt_fee rt = Qabs (fill_fee fill).
Proof.
  pose (fills := [mkFill "BTC" "B" 5 100 1000 0; mkFill "BTC" "A" 8 110 2000 (-2)]).
  pose (rt := nth 0 (get_hl_closed_trades (Some fills) 0)
                (mkRoundTrip "BTC" None 0 0 0 0 0 0 0 0)).
  destruct (round_trip_comes_from_a_fill fills 0 rt)
    as (fill & Hin & _ & _ & _ & Ht & _ & Hfee & _).
  - vm_compute. left. reflexivity.
  - exists rt, fill. auto.
Defined.

(** X9.  When no fetched fill has a negative size, every round trip
    returned has a positive quantity. *)
Theorem round_trip_quantity_is_positive fills since rt :
  Forall (fun f => (0 <= fill_sz f)%Q) fills ->
  In rt (get_hl_closed_trades (Some fills) since) ->
  (0 < quantity rt)%Q.
Proof.
  intros Hall Hin.
  apply returned_round_trip_emitted in Hin
    as (fills0 & pre & fill & post & st & Hf & Hsorted & Hpre & (Hd & Ho & pos' & Hc)).
  inversion Hf; subst fills0.
  destruct (sound_when_reached (fun _ => True) since fills pre fill post st)
    as (Hs & Hsz & _); auto using kept_by_averaging_True.
  { eapply Forall_impl; [exact Hall|]. auto. }
  pose proof (kept_positive_size _ Hd Hsz) as Ha.
  pose proof (is_opening_false_open _ _ Ho) as Hnz.
  apply close_fill_Some in Hc as (pct & d & _ & _ & -> & _). cbn.
  destruct Hs as [Hflat | (Ht & _)];
    [exfalso; apply Hnz; rewrite Hflat; reflexivity|].
  destruct (py_min_choice (fill_sz fill)
              (total_amount (position_of st (fill_coin fill)))) as [-> | ->];
    assumption.
Qed.

Lemma round_trip_quantity_is_positive_witness :
  (0 < quantity
         (nth 0 (get_hl_closed_trades
                   (Some [mkFill "BTC" "B" 5 100 1000 0;
                          mkFill "BTC" "A" 8 110 2000 0]) 0)
            (mkRoundTrip "BTC" None 0 0 0 0 0 0 0 0)))%Q.
Proof.
  apply (round_trip_quantity_is_positive
           [mkFill "BTC" "B" 5 100 1000 0; mkFill "BTC" "A" 8 110 2000 0] 0).
  - repeat constructor; discriminate.
  - vm_compute. left. reflexivity.
Defined.

(** ** When the loop raises *)

Lemma flat_side_when_open : side_when_open flat_position.
Proof. intros H. exfalso. apply H. reflexivity. Qed.

Lemma position_of_side_when_open st c :
  (forall c p, positions st !! c = Some p -> side_when_open p) ->
  side_when_open (position_of st c).
Proof.
  intros H. unfold position_of.
  destruct (positions st !! c) as [p|] eqn:E; cbn;
    [exact (H _ _ E) | apply flat_side_when_open].
Qed.

Lemma process_fill_side_when_open st f st' :
  (forall c p, positions st !! c = Some p -> side_when_open p) ->
  process_fill st f = Some st' ->
  forall c p, positions st' !! c = Some p -> side_when_open p.
Proof.
  intros Hinv Hp.
  pose proof (position_of_side_when_open st (fill_coin f) Hinv) as Hpos.
  destruct (process_fill_inv _ _ _ Hp) as [_ -> | _ _ -> | rt pos' _ _ Hc ->];
    [exact Hinv | |]; intros c p E; cbn in E;
    (destruct (decide (fill_coin f = c)) as [<-|Hne];
     [rewrite lookup_insert_eq in E; inversion E; subst; clear E
     |rewrite lookup_insert_ne in E by exact Hne; exact (Hinv _ _ E)]).
  - intros _. cbn.
    destruct (Qeq_bool (total_amount (position_of st (fill_coin f))) 0) eqn:Ez;
      [eauto|]. apply Hpos. now apply Qeq_bool_false.
  - apply close_fill_Some in Hc as (pct & d & _ & Hs & _ & ->).
    unfold after_close. destruct (Qle_bool _ 0); [apply flat_side_when_open|].
    intros _. cbn. rewrite Hs. eauto.
Qed.

Lemma match_fills_side_when_open l : forall st st',
  (forall c p, positions st !! c = Some p -> side_when_open p) ->
  match_fills st l = Some st' ->
  forall c p, positions st' !! c = Some p -> side_when_open p.
Proof.
  induction l as [|f l IH]; intros st st' Hinv Hm; cbn in Hm.
  - now inversion Hm; subst.
  - destruct (process_fill st f) as [st1|] eqn:Hp; [|discriminate]. cbn in Hm.
    eapply IH; [|exact Hm]. eapply process_fill_side_when_open; eauto.
Qed.

(** An iteration raises exactly on a zero divisor, once positions with
    exposure have a side. *)
Lemma process_fill_None_iff st f :
  side_when_open (position_of st (fill_coin f)) ->
  process_fill st f = None <-> zero_divisor st f.
Proof.
  intros Hside. unfold zero_divisor. cbv zeta.
  destruct (degenerate (fill_coin f) (fill_sz f)) eqn:Hd.
  { rewrite process_fill_degenerate by exact Hd.
    split; [discriminate | intros (H & _); discriminate]. }
  destruct (is_opening (position_of st (fill_coin f))
              (normalize_side (fill_side f))) eqn:Ho.
  { rewrite process_fill_opening by assumption.
    split; [discriminate | intros (_ & H & _); discriminate]. }
  rewrite process_fill_closing by assumption.
  destruct (Hside (is_opening_false_open _ _ Ho)) as [d Hs].
  unfold close_fill, realized_pnl_pct, is_long, py_div. rewrite Hs.
  destruct d; cbn.
  - destruct (Qeq_bool (avg_entry (position_of st (fill_coin f))) 0) eqn:E; cbn.
    + apply Qeq_bool_iff in E. split; [intros _|reflexivity].
      split; [reflexivity|]. split; [reflexivity|]. left. now split.
    + apply Qeq_bool_false in E.
      split; [discriminate|].
      intros (_ & _ & [[_ H] | [H _]]); [contradiction | discriminate].
  - destruct (Qeq_bool (fill_px f) 0) eqn:E; cbn.
    + apply Qeq_bool_iff in E. split; [intros _|reflexivity].
      split; [reflexivity|]. split; [reflexivity|]. right. now split.
    + apply Qeq_bool_false in E.
      split; [discriminate|].
      intros (_ & _ & [[H _] | [_ H]]); [discriminate | contradiction].
Qed.

Lemma match_fills_None l : forall st,
  match_fills st l = None ->
  exists pre f post st1,
    l = pre ++ f :: post /\
    match_fills st pre = Some st1 /\ process_fill st1 f = None.
Proof.
  induction l as [|f l IH]; intros st H; cbn in H; [discriminate|].
  destruct (process_fill st f) as [st1|] eqn:Hp; cbn in H.
  - destruct (IH _ H) as (pre & g & post & st2 & -> & Hm & Hg).
    exists (f :: pre), g, post, st2. split; [reflexivity|].
    split; [cbn; now rewrite Hp | exact Hg].
  - exists [], f, l, st. auto.
Qed.

(** X10.  The loop raises exactly when it reaches a closing fill whose
    divisor at line 111 is zero: the stored average entry price of a long,
    or the price of the fill that closes a short.  Nothing else in the
    loop raises: a position with exposure always has a side, so line 122
    never meets [None]. *)
Theorem loop_raises_exactly_on_zero_divisor fills since :
  run_matcher since fills = None <->
  exists pre fill post st,
    sorted_by_time (recent_fills since fills) = pre ++ fill :: post /\
    match_fills initial_state pre = Some st /\
    zero_divisor st fill.
Proof.
  assert (Hreach : forall pre st f,
             match_fills initial_state pre = Some st ->
             side_when_open (position_of st (fill_coin f))).
  { intros pre st f Hpre. apply position_of_side_when_open.
    eapply match_fills_side_when_open; [|exact Hpre].
    intros c p E. cbn in E. rewrite lookup_empty in E. discriminate. }
  unfold run_matcher. split.
  - intros H. apply match_fills_None in H
      as (pre & f & post & st & Hl & Hpre & Hf).
    exists pre, f, post, st. split; [exact Hl|]. split; [exact Hpre|].
    apply process_fill_None_iff; eauto.
  - intros (pre & f & post & st & Hl & Hpre & Hz).
    rewrite Hl, match_fills_app, Hpre. cbn.
    replace (process_fill st f) with (@None MatcherState); [reflexivity|].
    symmetry. apply process_fill_None_iff; eauto.
Qed.

(** ** Profit and the price *)

(** X23.  When no fetched fill has a negative size, the sign of the
    realized P&L of a round trip returned tells which way the price went:
    a positive P&L means an exit above the entry price for a long and below
    it for a short, a negative P&L the opposite, and an exit at the entry
    price gives a P&L of zero. *)
Theorem profit_tells_the_price_move fills since rt :
  Forall (fun f => (0 <= fill_sz f)%Q) fills ->
  In rt (get_hl_closed_trades (Some fills) since) ->
  (rt_side rt = Some Long ->
     ((0 < pnl_usd rt)%Q -> (entry_price rt < exit_price rt)%Q) /\
     ((pnl_usd rt < 0)%Q -> (exit_price rt < entry_price rt)%Q)) /\
  (rt_side rt = Some Short ->
     ((0 < pnl_usd rt)%Q -> (exit_price rt < entry_price rt)%Q) /\
     ((pnl_usd rt < 0)%Q -> (entry_price rt < exit_price rt)%Q)) /\
  ((exit_price rt == entry_price rt)%Q -> (pnl_usd rt == 0)%Q).
Proof.
  intros Hall Hin.
  apply returned_round_trip_emitted in Hin
    as (fills0 & pre & fill & post & st & Hf & Hsorted & Hpre & (Hd & Ho & pos' & Hc)).
  inversion Hf; subst fills0.
  destruct (sound_when_reached (fun _ => True) since fills pre fill post st)
    as (Hs & Hsz & _); auto using kept_by_averaging_True.
  { eapply Forall_impl; [exact Hall|]. auto. }
  pose proof (kept_positive_size _ Hd Hsz) as Ha.
  pose proof (is_opening_false_open _ _ Ho) as Hnz.
  destruct Hs as [Hflat | (Ht & _)];
    [exfalso; apply Hnz; rewrite Hflat; reflexivity|].
  apply close_fill_Some in Hc as (pct & d & _ & Hside & -> & _). cbn.
  set (pos := position_of st (fill_coin fill)) in *.
  assert (Hq : (0 < py_min (fill_sz fill) (total_amount pos))%Q)
    by (destruct (py_min_choice (fill_sz fill) (total_amount pos)) as [-> | ->];
        assumption).
  set (q := py_min (fill_sz fill) (total_amount pos)) in *.
  unfold realized_pnl, is_long. rewrite Hside.
  destruct d; cbn; (split; [|split]); try discriminate;
    try (intros _; split; intros; nra).
  - intros H. rewrite H. ring.
  - intros H. rewrite H. ring.
Qed.

Lemma profit_tells_the_price_move_witness :
  let rt := nth 0 (get_hl_closed_trades
                     (Some [mkFill "ETH" "A" 3 100 1000 0;
                            mkFill "ETH" "B" 3 90 2000 0]) 0)
              (mkRoundTrip "ETH" None 0 0 0 0 0 0 0 0) in
  (exit_price rt < entry_price rt)%Q.
Proof.
  intros rt.
  refine (proj1 (proj1 (proj2 (profit_tells_the_price_move
                   [mkFill "ETH" "A" 3 100 1000 0; mkFill "ETH" "B" 3 90 2000 0]
                   0 rt _ _)) _) _).
  - repeat constructor; discriminate.
  - vm_compute. left. reflexivity.
  - reflexivity.
  - reflexivity.
Defined.

(** ** One-sided streams *)

Lemma one_sided_is_opening side pos :
  side = "buy" \/ side = "sell" ->
  (pos = flat_position \/
   pos_side pos = Some (if (side =? "buy")%string then Long else Short)) ->
  is_opening pos side = true.
Proof.
  unfold is_opening. intros [-> | ->] [-> | ->]; cbn;
    now rewrite ?orb_true_r.
Qed.

Lemma one_sided_open_fill side pos amount price timestamp :
  (pos = flat_position \/
   pos_side pos = Some (if (side =? "buy")%string then Long else Short)) ->
  pos_side (open_fill pos side amount price timestamp) =
    Some (if (side =? "buy")%string then Long else Short).
Proof.
  intros [-> | H]; cbn; [reflexivity|].
  destruct (Qeq_bool (total_amount pos) 0); [reflexivity | exact H].
Qed.

Lemma match_fills_one_sided side l : forall st,
  side = "buy" \/ side = "sell" ->
  Forall (fun f => normalize_side (fill_side f) = side) l ->
  (forall c p, positions st !! c = Some p ->
     pos_side p = Some (if (side =? "buy")%string then Long else Short)) ->
  exists st',
    match_fills st l = Some st' /\ round_trips st' = round_trips st.
Proof.
  induction l as [|f l IH]; intros st Hside Hall Hinv; cbn; [now exists st|].
  inversion_clear Hall as [|? ? Hf Hl].
  destruct (degenerate (fill_coin f) (fill_sz f)) eqn:Hd.
  - rewrite process_fill_degenerate by exact Hd. cbn. now apply IH.
  - assert (Hpos : position_of st (fill_coin f) = flat_position \/
                   pos_side (position_of st (fill_coin f)) =
                     Some (if (side =? "buy")%string then Long else Short)).
    { unfold position_of. destruct (positions st !! fill_coin f) eqn:E; cbn;
        [right; exact (Hinv _ _ E) | now left]. }
    rewrite process_fill_opening
      by (try exact Hd; rewrite Hf; now apply one_sided_is_opening).
    cbn. rewrite Hf.
    set (st1 := {| positions := _; round_trips := round_trips st |}).
    destruct (IH st1 Hside Hl) as (st' & Hm & Hrt);
      [|exists st'; split; [exact Hm|exact Hrt]].
    intros c p E. cbn in E.
    destruct (decide (fill_coin f = c)) as [<-|Hne].
    + rewrite lookup_insert_eq in E. inversion E; subst.
      now apply one_sided_open_fill.
    + rewrite lookup_insert_ne in E by exact Hne. exact (Hinv _ _ E).
Qed.

(** X12.  A fetched list whose fills all go the same way (all buys, or all
    sells) only opens and extends positions: the loop does not raise and
    no round trip is returned, whatever the sizes and prices. *)
Theorem one_sided_stream_emits_nothing fills since side :
  side = "buy" \/ side = "sell" ->
  Forall (fun f => normalize_side (fill_side f) = side) fills ->
  (exists st, run_matcher since fills = Some st /\ round_trips st = []) /\
  get_hl_closed_trades (Some fills) since = [].
Proof.
  intros Hside Hall.
  destruct (match_fills_one_sided side
              (sorted_by_time (recent_fills since fills)) initial_state Hside)
    as (st & Hm & Hrt).
  - now apply sorted_recent_Forall.
  - intros c p E. cbn in E. rewrite lookup_empty in E. discriminate.
  - split; [exists st; split; [exact Hm | exact Hrt]|].
    unfold get_hl_closed_trades, run_matcher. now rewrite Hm.
Qed.

Lemma one_sided_stream_emits_nothing_witness :
  get_hl_closed_trades
    (Some [mkFill "BTC" "B" 5 100 1000 0; mkFill "BTC" "long" 2 0 2000 0;
           mkFill "ETH" "Buy" (-1) 50 3000 0]) 0 = [].
Proof.
  apply (one_sided_stream_emits_nothing
           [mkFill "BTC" "B" 5 100 1000 0; mkFill "BTC" "long" 2 0 2000 0;
            mkFill "ETH" "Buy" (-1) 50 3000 0] 0 "buy").
  - left. reflexivity.
  - repeat constructor.
Defined.

(** * Further properties of the writer *)

(** X13.  A timestamp between 10^7 and 10^10 read as seconds and the same
    instant written in milliseconds give the same [datetime] (or both
    none): the unit guess of lines 153-154 is consistent on that range. *)
Theorem seconds_and_milliseconds_agree s :
  10 ^ 7 < s <= 10 ^ 10 ->
  to_datetime (1000 * s) = to_datetime s.
Proof.
  intros [Hlo Hhi]. unfold to_datetime.
  replace (10 ^ 10 <? 1000 * s) with true by (symmetry; apply Z.ltb_lt; lia).
  replace (10 ^ 10 <? s) with false by (symmetry; apply Z.ltb_ge; lia).
  f_equal. lia.
Qed.

Lemma seconds_and_milliseconds_agree_witness :
  to_datetime (1000 * 1700000000) = to_datetime 1700000000.
Proof. apply seconds_and_milliseconds_agree. lia. Defined.

(** ** Rows of other users *)

Lemma filter_dedup_of_user user_id sym entry_dt exit_dt table :
  List.filter (dedup_match user_id sym entry_dt exit_dt)
    (List.filter (of_user user_id) table) =
  List.filter (dedup_match user_id sym entry_dt exit_dt) table.
Proof.
  induction table as [|row table IH]; cbn; [reflexivity|].
  unfold of_user at 1, dedup_match at 2.
  destruct (row_user_id row =? user_id) eqn:E; cbn.
  - unfold dedup_match at 1. rewrite E. cbn. now rewrite IH.
  - exact IH.
Qed.

Lemma try_insert_of_user raises user_id fee_rate table rt :
  try_insert raises user_id fee_rate (List.filter (of_user user_id) table) rt =
  try_insert raises user_id fee_rate table rt.
Proof.
  unfold try_insert, count_existing.
  destruct (to_datetime (entry_time rt)); [|reflexivity].
  destruct (to_datetime (exit_time rt)); [|reflexivity].
  now rewrite filter_dedup_of_user.
Qed.

Lemma backfill_loop_of_user raises user_id fee_rate rts : forall i st st',
  trades st' = List.filter (of_user user_id) (trades st) ->
  inserted st' = inserted st -> total_pnl st' = total_pnl st ->
  total_fees st' = total_fees st ->
  let full := backfill_loop raises i user_id fee_rate st rts in
  let own := backfill_loop raises i user_id fee_rate st' rts in
  trades own = List.filter (of_user user_id) (trades full) /\
  inserted own = inserted full /\ total_pnl own = total_pnl full /\
  total_fees own = total_fees full.
Proof.
  induction rts as [|rt rts IH]; intros i st st' Ht Hi Hp Hf; cbn; [auto|].
  apply IH; unfold writer_step; rewrite Ht, try_insert_of_user;
    destruct (try_insert _ _ _ _ _) as [row| |] eqn:E; cbn; auto; try congruence.
  rewrite List.filter_app. cbn.
  apply try_insert_Inserted in E as (ed & xd & _ & _ & _ & _ & _ & ->).
  unfold of_user. cbn. now rewrite Z.eqb_refl.
Qed.

(** X14.  The rows of other users play no part: started from the rows of
    the user alone, the writer inserts the same number of rows, returns
    the same sums, and leaves exactly the user's part of the table the full
    run leaves. *)
Theorem other_users_rows_are_ignored raises user_id fee_rate table batch :
  let full := backfill_loop raises 0 user_id fee_rate (writer_start table) batch in
  let own := backfill_loop raises 0 user_id fee_rate
               (writer_start (List.filter (of_user user_id) table)) batch in
  trades own = List.filter (of_user user_id) (trades full) /\
  inserted own = inserted full /\
  total_pnl own = total_pnl full /\
  total_fees own = total_fees full.
Proof. now apply backfill_loop_of_user. Qed.

(** ** No duplicate is created *)

Lemma same_trade_sym a b : same_trade a b = same_trade b a.
Proof.
  unfold same_trade, dedup_match.
  rewrite (Z.eqb_sym (row_user_id b)), (String.eqb_sym (row_symbol b)).
  rewrite <- (Z.abs_opp (opened_at b - opened_at a)),
          <- (Z.abs_opp (closed_at b - closed_at a)).
  now rewrite !Z.opp_sub_distr, !Z.add_opp_l.
Qed.

Lemma ForallOrdPairs_snoc {A} (R : A -> A -> Prop) l y :
  ForallOrdPairs R l -> Forall (fun x => R x y) l ->
  ForallOrdPairs R (l ++ [y]).
Proof.
  induction 1 as [|x l Hx Hl IH]; cbn; intros Hy.
  - repeat constructor.
  - inversion Hy; subst. constructor; [|now apply IH].
    apply Forall_app. split; [exact Hx | now repeat constructor].
Qed.

Lemma writer_step_duplicate_free raises user_id fee_rate st rt :
  duplicate_free (trades st) ->
  duplicate_free (trades (writer_step raises user_id fee_rate st rt)).
Proof.
  intros H. unfold writer_step.
  destruct (try_insert _ _ _ _ _) as [row| |] eqn:E; cbn; auto.
  apply try_insert_Inserted in E as (ed & xd & _ & _ & _ & _ & Hnew & ->).
  apply ForallOrdPairs_snoc; [exact H|].
  apply Forall_forall. intros old Hold. apply list_elem_of_In in Hold.
  rewrite same_trade_sym. unfold same_trade. cbn. now apply Hnew.
Qed.

(** X15.  The writer creates no duplicate: when no two rows of the table
    have the same user and symbol with [opened_at] and [closed_at] each
    less than 60 seconds apart, the same holds of the table after the
    batch, whatever the batch holds and whatever the store raises. *)
Theorem writer_creates_no_duplicate raises user_id fee_rate table batch :
  duplicate_free table ->
  duplicate_free
    (trades (backfill_loop raises 0 user_id fee_rate (writer_start table) batch)).
Proof.
  intros H.
  assert (G : forall rts i st, duplicate_free (trades st) ->
              duplicate_free (trades (backfill_loop raises i user_id fee_rate st rts))).
  { induction rts as [|rt rts IH]; intros i st Hst; cbn; [exact Hst|].
    apply IH. now apply writer_step_duplicate_free. }
  now apply G.
Qed.

Lemma writer_creates_no_duplicate_witness :
  let batch := [mkRoundTrip "BTC" (Some Long) 100 110 1 10 10
                  1700000000000 1700000060000 0;
                mkRoundTrip "BTC" (Some Long) 100 111 1 11 11
                  1700000000000 1700000090000 0] in
  duplicate_free
    (trades (backfill_loop (fun _ _ => false) 0 7 (1 # 10) (writer_start []) batch)).
Proof.
  intros batch. apply writer_creates_no_duplicate. constructor.
Defined.

(** ** Round trips close to one another *)

(** X16.  Once a round trip of the batch has been inserted, a later round
    trip of the batch on the same symbol whose entry and exit times are
    each less than 60 seconds from the first one's is not inserted: its
    iteration changes neither the table nor the aggregates. *)
Theorem close_round_trips_are_stored_once
    raises user_id fee_rate table pre rt1 mid rt2 row1 entry_dt exit_dt :
  let before1 := backfill_loop raises 0 user_id fee_rate (writer_start table) pre in
  let before2 := backfill_loop raises 0 user_id fee_rate (writer_start table)
                   (pre ++ rt1 :: mid) in
  try_insert (raises (length pre)) user_id fee_rate (trades before1) rt1
    = Inserted row1 ->
  symbol rt2 = symbol rt1 ->
  to_datetime (entry_time rt2) = Some entry_dt ->
  to_datetime (exit_time rt2) = Some exit_dt ->
  Z.abs (opened_at row1 - entry_dt) < 60 * 1000000 ->
  Z.abs (closed_at row1 - exit_dt) < 60 * 1000000 ->
  forall raises2, writer_step raises2 user_id fee_rate before2 rt2 = before2.
Proof.
  intros before1 before2 Hins Hsym He Hx Hopen Hclose raises2.
  apply writer_step_matched.
  exists entry_dt, exit_dt, row1. repeat split; auto.
  - unfold before2. rewrite backfill_loop_app. cbn. fold before1.
    destruct (backfill_loop_trades raises user_id fee_rate mid
                (S (length pre))
                (writer_step (raises (length pre)) user_id fee_rate before1 rt1))
      as (new & ->).
    apply in_or_app. left. unfold writer_step. cbn. rewrite Hins. cbn.
    apply in_or_app. right. now left.
  - apply try_insert_Inserted in Hins as (ed & xd & _ & _ & _ & _ & _ & Hrow).
    unfold dedup_match. rewrite Hsym. subst row1. cbn in *.
    rewrite Z.eqb_refl, String.eqb_refl. cbn.
    apply andb_true_iff. split; now apply Z.ltb_lt.
Qed.

Lemma close_round_trips_are_stored_once_witness :
  let fills := [mkFill "BTC" "B" 2 100 1700000000000 0;
                mkFill "BTC" "A" 1 110 1700000100000 0;
                mkFill "BTC" "A" 1 111 1700000130000 0] in
  let batch := get_hl_closed_trades (Some fills) 0 in
  length batch = 2%nat /\
  inserted (backfill_loop (fun _ _ => false) 0 7 (1 # 10) (writer_start []) batch)
    = 1%nat.
Proof.
  intros fills batch. split; [vm_compute; reflexivity|].
  pose (dflt := mkRoundTrip "BTC" None 0 0 0 0 0 0 0 0).
  pose (rt1 := nth 0 batch dflt). pose (rt2 := nth 1 batch dflt).
  pose (row1 := ledger_row 7 rt1 (fee_amount_of (1 # 10) rt1)
                  1700000000000000 1700000100000000).
  pose proof (close_round_trips_are_stored_once (fun _ _ => false) 7 (1 # 10)
                [] [] rt1 [] rt2 row1 1700000000000000 1700000130000000)
    as H.
  cbv zeta in H.
  specialize (H ltac:(vm_compute; reflexivity) ltac:(vm_compute; reflexivity)
                ltac:(vm_compute; reflexivity) ltac:(vm_compute; reflexivity)
                ltac:(vm_compute; reflexivity) ltac:(vm_compute; reflexivity)
                (fun _ => false)).
  replace batch with [rt1; rt2] by (vm_compute; reflexivity).
  refine (eq_trans (f_equal inserted H) _).
  vm_compute. reflexivity.
Defined.

(** ** Where the inserted rows come from *)

Lemma backfill_loop_rows raises user_id fee_rate rts : forall i st,
  exists new,
    trades (backfill_loop raises i user_id fee_rate st rts) = trades st ++ new /\
    (length new <= length rts)%nat /\
    Forall (fun row => exists rt, In rt rts /\ row_of_trade user_id fee_rate rt row)
      new.
Proof.
  induction rts as [|rt rts IH]; intros i st; cbn.
  - exists []. rewrite app_nil_r. repeat split; auto.
  - destruct (IH (S i) (writer_step (raises i) user_id fee_rate st rt))
      as (new & Ht & Hlen & Hall).
    assert (Hall' : Forall (fun row => exists rt0, (rt = rt0 \/ In rt0 rts) /\
                                row_of_trade user_id fee_rate rt0 row) new).
    { eapply Forall_impl; [exact Hall|]. intros row (rt0 & Hin & Hrow). eauto. }
    rewrite Ht. unfold writer_step.
    destruct (try_insert _ _ _ _ _) as [row| |] eqn:E; cbn;
      [|exists new; repeat split; auto; lia ..].
    exists (row :: new). rewrite <- app_assoc. cbn.
    repeat split; [lia|]. constructor; [|exact Hall'].
    exists rt. split; [now left|].
    apply try_insert_Inserted in E as (ed & xd & He & Hx & _ & _ & _ & ->).
    exists ed, xd. auto.
Qed.

(** X17.  The writer only appends: the rows it found stay where they are,
    in order, and every row it adds is the row of a round trip of the
    batch (that user, that round trip's fields, its fee, its two times as
    [datetime], leverage 1, source ['reconciliation']); it adds at most
    one row per round trip. *)
Theorem inserted_rows_come_from_the_batch raises user_id fee_rate table batch :
  exists new,
    trades (backfill_loop raises 0 user_id fee_rate (writer_start table) batch)
      = table ++ new /\
    (length new <= length batch)%nat /\
    Forall (fun row => exists rt, In rt batch /\ row_of_trade user_id fee_rate rt row)
      new.
Proof. apply (backfill_loop_rows raises user_id fee_rate batch 0 (writer_start table)). Qed.

Lemma to_datetime_monotone_ms e x entry_dt exit_dt :
  10 ^ 10 < e -> e <= x ->
  to_datetime e = Some entry_dt -> to_datetime x = Some exit_dt ->
  entry_dt <= exit_dt.
Proof.
  unfold to_datetime, utcfromtimestamp. intros He Hex.
  replace (10 ^ 10 <? e) with true by (symmetry; apply Z.ltb_lt; lia).
  replace (10 ^ 10 <? x) with true by (symmetry; apply Z.ltb_lt; lia).
  destruct (_ && _); [|discriminate]. destruct (_ && _); [|discriminate].
  intros H1 H2. inversion H1; inversion H2; subst. lia.
Qed.

(** X18.  When the lower bound of the window is above 10^10 (times in
    milliseconds), every row the writer adds for the round trips the
    matcher returned has [opened_at] not after [closed_at]. *)
Theorem stored_rows_open_before_they_close
    fetched since raises user_id fee_rate table :
  10 ^ 10 < since ->
  exists new,
    trades (backfill_loop raises 0 user_id fee_rate (writer_start table)
              (get_hl_closed_trades fetched since)) = table ++ new /\
    Forall (fun row => opened_at row <= closed_at row) new.
Proof.
  intros Hsince.
  destruct (backfill_loop_rows raises user_id fee_rate
              (get_hl_closed_trades fetched since) 0 (writer_start table))
    as (new & Ht & _ & Hall).
  exists new. split; [exact Ht|].
  eapply Forall_impl; [exact Hall|].
  intros row (rt & Hin & ed & xd & He & Hx & ->). cbn.
  destruct (returned_times_ordered _ _ _ Hin) as [H1 H2].
  eapply to_datetime_monotone_ms; [| exact H2 | exact He | exact Hx]. lia.
Qed.

Lemma stored_rows_open_before_they_close_witness :
  exists new,
    trades (backfill_loop (fun _ _ => false) 0 7 (1 # 10) (writer_start [])
              (get_hl_closed_trades
                 (Some [mkFill "BTC" "B" 2 100 1700000000000 0;
                        mkFill "BTC" "A" 2 110 1700000100000 0])
                 1600000000000)) = [] ++ new /\
    Forall (fun row => opened_at row <= closed_at row) new.
Proof.
  apply (stored_rows_open_before_they_close
           (Some [mkFill "BTC" "B" 2 100 1700000000000 0;
                  mkFill "BTC" "A" 2 110 1700000100000 0])
           1600000000000 (fun _ _ => false) 7 (1 # 10) []).
  reflexivity.
Defined.

(** * The entry points *)

Section EntryPointProperties.

Variable CREDENTIALS_ENCRYPTION_KEY : option string.
Variable fernet_decrypt : string -> string -> option string.
Variable from_key : string -> option string.
Variable FEE_TIERS : gmap string Q.

Local Abbreviation wallet_or_skip' :=
  (wallet_or_skip CREDENTIALS_ENCRYPTION_KEY fernet_decrypt from_key).
Local Abbreviation reconcile_users' :=
  (reconcile_users CREDENTIALS_ENCRYPTION_KEY fernet_decrypt from_key FEE_TIERS).
Local Abbreviation decrypt' :=
  (decrypt_credential CREDENTIALS_ENCRYPTION_KEY fernet_decrypt).

Lemma row_of_trade_user user_id fee_rate rt row :
  row_of_trade user_id fee_rate rt row -> row_user_id row = user_id.
Proof. intros (ed & xd & _ & _ & ->). reflexivity. Qed.

Lemma reconcile_wallet_rows venue table user wallet_address :
  is_Some (FEE_TIERS !! "standard") ->
  exists new,
    reconcile_wallet FEE_TIERS venue table user wallet_address = Some (table ++ new) /\
    Forall (fun row => row_user_id row = u_id user) new.
Proof.
  intros [std Hstd]. unfold reconcile_wallet.
  destruct (get_hl_closed_trades _ _) as [|rt rts].
  - exists []. now rewrite app_nil_r.
  - unfold backfill_trades, resolve_fee_rate. rewrite Hstd. cbn.
    destruct (backfill_loop_rows (store_raises venue) (u_id user)
                (default std (FEE_TIERS !! tier_or_standard (u_fee_tier user)))
                (rt :: rts) 0 (writer_start table)) as (new & Ht & _ & Hall).
    exists new. cbn in Ht. rewrite Ht. split; [reflexivity|].
    eapply Forall_impl; [exact Hall|].
    intros row (rt0 & _ & Hrow). eapply row_of_trade_user, Hrow.
Qed.

Lemma reconcile_users_rows world users : forall i table,
  is_Some (FEE_TIERS !! "standard") ->
  exists new,
    reconcile_users' world i table users = Some (table ++ new) /\
    Forall (fun row => exists u, In u users /\ row_user_id row = u_id u) new.
Proof.
  induction users as [|user users IH]; intros i table Hstd; cbn.
  - exists []. now rewrite app_nil_r.
  - assert (Hweak : forall new,
              Forall (fun row => exists u, In u users /\ row_user_id row = u_id u) new ->
              Forall (fun row => exists u, (user = u \/ In u users) /\
                                     row_user_id row = u_id u) new).
    { intros new H. eapply Forall_impl; [exact H|].
      intros row (u & Hin & Hrow). eauto. }
    destruct (wallet_or_skip' user) as [w|].
    + destruct (reconcile_wallet_rows (world i) table user w Hstd)
        as (new1 & -> & Hall1). cbn.
      destruct (IH (S i) (table ++ new1) Hstd) as (new2 & -> & Hall2).
      exists (new1 ++ new2). rewrite app_assoc. split; [reflexivity|].
      apply Forall_app. split; [|now apply Hweak].
      eapply Forall_impl; [exact Hall1|]. intros row Hrow. eauto.
    + destruct (IH (S i) table Hstd) as (new & -> & Hall).
      exists new. split; [reflexivity | now apply Hweak].
Qed.

(** X19.  With the ['standard'] tier configured, the run over all users
    always reaches its end: a user whose wallet cannot be derived, whose
    fetch or matching fails, or whose rows the store refuses never stops
    it.  The table it leaves is the table it found followed by new rows,
    each carrying the id of a user with [credentials_set] and a stored
    key. *)
Theorem reconcile_all_users_completes world follower_users table :
  is_Some (FEE_TIERS !! "standard") ->
  exists new,
    reconcile_all_users CREDENTIALS_ENCRYPTION_KEY fernet_decrypt from_key
      FEE_TIERS world follower_users table = Some (table ++ new) /\
    Forall (fun row => exists u, In u follower_users /\ eligible u = true /\
                                 row_user_id row = u_id u) new.
Proof.
  intros Hstd. unfold reconcile_all_users.
  destruct (reconcile_users_rows world (List.filter eligible follower_users)
              0 table Hstd) as (new & Hr & Hall).
  exists new. split; [exact Hr|].
  eapply Forall_impl; [exact Hall|].
  intros row (u & Hin & Hrow). apply filter_In in Hin as [Hin He]. eauto.
Qed.

Lemma reconcile_users_unconfigured world users : forall i table table',
  FEE_TIERS !! "standard" = None ->
  reconcile_users' world i table users = Some table' -> table' = table.
Proof.
  induction users as [|user users IH]; intros i table table' Hstd H; cbn in H.
  - now inversion H.
  - destruct (wallet_or_skip' user) as [w|]; [|now apply IH in H].
    unfold reconcile_wallet in H.
    destruct (get_hl_closed_trades _ _) as [|rt rts]; cbn in H;
      [now apply IH in H|].
    unfold backfill_trades, resolve_fee_rate in H. rewrite Hstd in H.
    discriminate H.
Qed.

(** Users without round trips are passed over, whatever the tiers. *)
Lemma reconcile_users_idle world pre : forall i table rest,
  idle_users CREDENTIALS_ENCRYPTION_KEY fernet_decrypt from_key world i pre ->
  reconcile_users' world i table (pre ++ rest) =
    reconcile_users' world (i + length pre) table rest.
Proof.
  induction pre as [|user pre IH]; intros i table rest Hidle; cbn.
  - now rewrite Nat.add_0_r.
  - destruct Hidle as [Huser Hrest].
    replace (i + S (length pre))%nat with (S i + length pre)%nat by lia.
    destruct (wallet_or_skip' user) as [w|]; [|now apply IH].
    unfold reconcile_wallet. rewrite Huser. cbn. now apply IH.
Qed.

Lemma reconcile_wallet_unconfigured venue table user w :
  FEE_TIERS !! "standard" = None ->
  get_hl_closed_trades (user_fills venue w) (window_start venue) <> [] ->
  backfill_trades FEE_TIERS (store_raises venue) table (u_id user)
    (get_hl_closed_trades (user_fills venue w) (window_start venue))
    (tier_or_standard (u_fee_tier user)) = None /\
  reconcile_wallet FEE_TIERS venue table user w = None.
Proof.
  intros Hstd Hne.
  assert (Hb : forall rts, backfill_trades FEE_TIERS (store_raises venue) table
                 (u_id user) rts (tier_or_standard (u_fee_tier user)) = None).
  { intros rts. unfold backfill_trades, resolve_fee_rate. now rewrite Hstd. }
  split; [apply Hb|]. unfold reconcile_wallet.
  destruct (get_hl_closed_trades _ _) as [|rt rts]; [contradiction|].
  now rewrite Hb.
Qed.

(** X20.  Without a ['standard'] tier in [FEE_TIERS] nothing is ever
    written.  When no eligible user has a round trip the run ends with the
    table untouched.  Otherwise it is stopped at the first eligible user
    that has one: the users before it leave the table untouched,
    [backfill_trades] raises the [KeyError] of line 141 for that user
    before any call on the store, and the exception leaves
    [reconcile_all_users].  So a run that ends has changed nothing. *)
Theorem no_standard_tier_no_row world follower_users table :
  FEE_TIERS !! "standard" = None ->
  let users := List.filter eligible follower_users in
  let run :=
    reconcile_all_users CREDENTIALS_ENCRYPTION_KEY fernet_decrypt from_key
      FEE_TIERS world follower_users table in
  (idle_users CREDENTIALS_ENCRYPTION_KEY fernet_decrypt from_key world 0 users ->
     run = Some table) /\
  (forall pre user post w,
      users = pre ++ user :: post ->
      idle_users CREDENTIALS_ENCRYPTION_KEY fernet_decrypt from_key world 0 pre ->
      wallet_or_skip' user = Some w ->
      get_hl_closed_trades (user_fills (world (length pre)) w)
        (window_start (world (length pre))) <> [] ->
      reconcile_users' world 0 table pre = Some table /\
      backfill_trades FEE_TIERS (store_raises (world (length pre))) table
        (u_id user)
        (get_hl_closed_trades (user_fills (world (length pre)) w)
           (window_start (world (length pre))))
        (tier_or_standard (u_fee_tier user)) = None /\
      run = None) /\
  (forall table', run = Some table' -> table' = table).
Proof.
  intros Hstd users run.
  assert (Hidle : forall pre, idle_users CREDENTIALS_ENCRYPTION_KEY fernet_decrypt
                    from_key world 0 pre ->
                  reconcile_users' world 0 table pre = Some table).
  { intros pre H.
    pose proof (reconcile_users_idle world pre 0 table [] H) as E.
    rewrite app_nil_r in E. rewrite E. reflexivity. }
  split; [|split].
  - intros H. unfold run, reconcile_all_users. now apply Hidle.
  - intros pre user post w Husers Hpre Hw Hne.
    destruct (reconcile_wallet_unconfigured (world (length pre)) table user w
                Hstd Hne) as [Hb Hr].
    split; [now apply Hidle|]. split; [exact Hb|].
    unfold run, reconcile_all_users. fold users. rewrite Husers.
    rewrite (reconcile_users_idle world pre 0 table (user :: post) Hpre).
    cbn. rewrite Hw, Hr. reflexivity.
  - intros table' H. unfold run, reconcile_all_users in H.
    eapply reconcile_users_unconfigured; eauto.
Qed.

(** X21.  The two entry points treat a user alike, except when the wallet
    has to be derived and [Account.from_key] raises: the run over all
    users skips that user and leaves the table as it is (lines 214-218),
    the run for the single user lets the exception out (line 259). *)
Theorem entry_points_agree_unless_key_derivation_raises
    venue follower_users table user_id user :
  List.find (fun u => u_id u =? user_id) follower_users = Some user ->
  let raises :=
    negb (truthy (u_wallet_address user))
    && negb (decrypt' (u_key_encrypted user) =? EmptyString)%string
    && match from_key (decrypt' (u_key_encrypted user)) with
       | None => true
       | Some _ => false
       end in
  let single :=
    reconcile_single_user CREDENTIALS_ENCRYPTION_KEY fernet_decrypt from_key
      FEE_TIERS venue follower_users table user_id in
  let batch := reconcile_users' (fun _ => venue) 0 table [user] in
  (raises = true -> single = None /\ batch = Some table) /\
  (raises = false -> single = batch).
Proof.
  intros Hfind raises single batch.
  unfold single, batch, raises, reconcile_single_user. rewrite Hfind. cbn.
  unfold wallet_or_skip.
  destruct (truthy (u_wallet_address user)) eqn:Hw; cbn.
  - split; [discriminate|]. intros _.
    destruct (u_wallet_address user) as [w|]; [|discriminate Hw]. cbn.
    now destruct (reconcile_wallet _ _ _ _ _).
  - destruct (decrypt' (u_key_encrypted user) =? EmptyString)%string; cbn.
    + split; [discriminate | reflexivity].
    + destruct (from_key _) as [w|]; cbn.
      * split; [discriminate|]. intros _.
        now destruct (reconcile_wallet _ _ _ _ _).
      * split; [auto | discriminate].
Qed.

End EntryPointProperties.

Lemma reconcile_all_users_completes_witness :
  let tiers : gmap string Q := {["standard" := (1 # 10)%Q]} in
  let venue := mkVenue
                 (fun _ => Some [mkFill "BTC" "B" 2 100 1700000000000 0;
                                 mkFill "BTC" "A" 2 110 1700000100000 0])
                 1600000000000 (fun _ _ => false) in
  let users := [mkUser 7 "a@example.org" None (Some "token") (Some "0xabc") true;
                mkUser 8 "b@example.org" (Some "vip") (Some "token") None true] in
  exists new,
    reconcile_all_users None (fun _ _ => None) (fun _ => None) tiers
      (fun _ => venue) users [] = Some ([] ++ new) /\
    Forall (fun row => exists u, In u users /\ eligible u = true /\
                                 row_user_id row = u_id u) new.
Proof.
  intros tiers venue users.
  apply (reconcile_all_users_completes None (fun _ _ => None) (fun _ => None)
           tiers (fun _ => venue) users []).
  exists (1 # 10)%Q. reflexivity.
Defined.

Lemma no_standard_tier_no_row_witness :
  let quiet := mkVenue (fun _ => Some [mkFill "BTC" "B" 2 100 1700000000000 0])
                 1600000000000 (fun _ _ => false) in
  let busy := mkVenue
                (fun _ => Some [mkFill "BTC" "B" 2 100 1700000000000 0;
                                mkFill "BTC" "A" 2 110 1700000100000 0])
                1600000000000 (fun _ _ => false) in
  let world := fun i : nat => match i with O => quiet | _ => busy end in
  let users := [mkUser 7 "a@example.org" None (Some "token") (Some "0xabc") true;
                mkUser 8 "b@example.org" None (Some "token") (Some "0xdef") true;
                mkUser 9 "c@example.org" None (Some "token") (Some "0x123") true] in
  reconcile_users None (fun _ _ => None) (fun _ => None) ∅ world 0 []
    [mkUser 7 "a@example.org" None (Some "token") (Some "0xabc") true] = Some [] /\
  reconcile_all_users None (fun _ _ => None) (fun _ => None) ∅ world users []
    = None.
Proof.
  intros quiet busy world users.
  assert (Hstd : (∅ : gmap string Q) !! "standard" = None) by reflexivity.
  destruct (proj1 (proj2 (no_standard_tier_no_row None (fun _ _ => None)
                            (fun _ => None) ∅ world users [] Hstd))
              [mkUser 7 "a@example.org" None (Some "token") (Some "0xabc") true]
              (mkUser 8 "b@example.org" None (Some "token") (Some "0xdef") true)
              [mkUser 9 "c@example.org" None (Some "token") (Some "0x123") true]
              "0xdef")
    as (Hpre & _ & Hrun).
  - reflexivity.
  - split; [vm_compute; reflexivity | exact I].
  - reflexivity.
  - vm_compute. discriminate.
  - split; [exact Hpre | exact Hrun].
Defined.

Lemma entry_points_agree_unless_key_derivation_raises_witness :
  let venue := mkVenue (fun _ => Some []) 0 (fun _ _ => false) in
  let user := mkUser 7 "a@example.org" None (Some "token") None true in
  reconcile_single_user (Some "key") (fun _ _ => Some "pk") (fun _ => None) ∅
    venue [user] [] 7 = None /\
  reconcile_users (Some "key") (fun _ _ => Some "pk") (fun _ => None) ∅
    (fun _ => venue) 0 [] [user] = Some [].
Proof.
  intros venue user.
  apply (proj1 (entry_points_agree_unless_key_derivation_raises
                  (Some "key") (fun _ _ => Some "pk") (fun _ => None) ∅
                  venue [user] [] 7 user eq_refl)).
  reflexivity.
Defined.
